(** * Linear internal gravity waves

    A shallow embedding of [ocean_tools/gravity_waves.py]: the dispersion
    relation, the amplitude ratios, the field evaluators, the position-stack
    evaluator and the group-velocity geometry, with the properties of the
    formulas that the module's description relies on.

    The Python functions are duck-typed: the same body runs on built-in
    numbers and on NumPy values.  The arithmetic they use is therefore an
    interface ([PyNum]) and the dispersion relation is written once against
    it.  Two instances follow:

    - [rval]: exact real arithmetic with NumPy's conventions for the points
      where an operation leaves the reals (the result is data, [NaN]);
    - [pyres]: binary64 values tagged with their Python type, where built-in
      numbers raise and NumPy values carry IEEE-754 specials. *)

From Stdlib Require Import Reals Lra Psatz ZArith Bool List.
From Stdlib Require Floats.
Import ListNotations.

Local Open Scope R_scope.

(** ** The arithmetic the module uses *)

Declare Scope py_scope.
Delimit Scope py_scope with py.

Class PyNum (T : Type) : Type := {
  py_add : T -> T -> T;        (* a + b *)
  py_sub : T -> T -> T;        (* a - b *)
  py_mul : T -> T -> T;        (* a * b *)
  py_truediv : T -> T -> T;    (* a / b *)
  py_neg : T -> T;             (* -a *)
  py_sq : T -> T;              (* a**2 *)
  np_sqrt : T -> T             (* np.sqrt(a) *)
}.

Notation "x + y" := (py_add x y) : py_scope.
Notation "x - y" := (py_sub x y) : py_scope.
Notation "x * y" := (py_mul x y) : py_scope.
Notation "x / y" := (py_truediv x y) : py_scope.
Notation "- x" := (py_neg x) : py_scope.
Notation "x ²" := (py_sq x) (at level 1, format "x ²") : py_scope.

(** ** Dispersion relation *)

Section Dispersion.
Context {T : Type} `{PyNum T}.
Local Open Scope py_scope.

(** [omega(N, k, m, l=0., f=0.)] *)
Definition omega (N k m l f : T) : T :=
  let N2 := N² in
  let k2 := k² in
  let m2 := m² in
  let l2 := l² in
  let f2 := f² in
  np_sqrt ((f2 * m2 + N2 * (k2 + l2)) / (k2 + l2 + m2)).

End Dispersion.

(** ** Instance 1: real numbers with NaN

    A value is a real number or [NaN].  [NaN] stands for every non-real
    IEEE-754 result (NaN and the two infinities): the module never divides
    by a quantity that can only be infinite, so the distinction is not
    observable in the formulas below.  Rounding and overflow are not
    modelled. *)

Inductive rval : Type :=
| Real (r : R)
| NaN.

Definition r_lift1 (op : R -> R) (a : rval) : rval :=
  match a with
  | Real x => Real (op x)
  | NaN => NaN
  end.

Definition r_lift2 (op : R -> R -> R) (a b : rval) : rval :=
  match a, b with
  | Real x, Real y => Real (op x y)
  | _, _ => NaN
  end.

Definition r_div (a b : rval) : rval :=
  match a, b with
  | Real x, Real y => if Req_dec_T y 0 then NaN else Real (x / y)
  | _, _ => NaN
  end.

Definition r_sqrt (a : rval) : rval :=
  match a with
  | Real x => if Rlt_dec x 0 then NaN else Real (sqrt x)
  | NaN => NaN
  end.

#[export] Instance r_PyNum : PyNum rval := {
  py_add := r_lift2 Rplus;
  py_sub := r_lift2 Rminus;
  py_mul := r_lift2 Rmult;
  py_truediv := r_div;
  py_neg := r_lift1 Ropp;
  py_sq := r_lift1 (fun x => x ^ 2);
  np_sqrt := r_sqrt
}.

(** ** Instance 2: Python and NumPy scalars in binary64

    Built-in ints are exact, built-in floats and NumPy float64 values are
    binary64.  An operation on built-in numbers follows CPython (a zero
    divisor and an overflowing power raise); an operation with a NumPy
    operand follows IEEE-754 under NumPy's default error state, where an
    invalid operation or a division by zero is a warning and the special
    value is returned. *)

Module Py.
Import Floats.

Inductive pyval : Type :=
| PyInt (z : Z)              (* built-in int *)
| PyFloat (x : float)        (* built-in float *)
| NpFloat64 (x : float).     (* numpy.float64, or an element of an ndarray *)

Inductive pyexn : Type :=
| ZeroDivisionError
| OverflowError
| TypeError.

Inductive outcome (A : Type) : Type :=
| Ret (a : A)
| Raise (e : pyexn).
Arguments Ret {A} a.
Arguments Raise {A} e.

Definition bind {A B : Type} (c : outcome A) (k : A -> outcome B) : outcome B :=
  match c with
  | Ret a => k a
  | Raise e => Raise e
  end.

Notation "x <- c ;; k" := (bind c (fun x => k))
  (at level 61, c at next level, right associativity).

Definition pyres : Type := outcome pyval.

(** [float(z)]: the nearest binary64, ties to even; an int beyond the
    range of binary64 does not convert. *)
Definition float_of_Z (z : Z) : float :=
  SF2Prim (binary_normalize prec emax z 0 false).

Definition to_double (v : pyval) : outcome float :=
  match v with
  | PyInt z =>
      let x := float_of_Z z in
      if is_infinity x then Raise OverflowError else Ret x
  | PyFloat x => Ret x
  | NpFloat64 x => Ret x
  end.

Definition is_np (v : pyval) : bool :=
  match v with
  | NpFloat64 _ => true
  | _ => false
  end.

(** A binary operation with at least one non-int operand: both operands
    become doubles; a NumPy operand makes the result a NumPy scalar and
    the operation the IEEE one. *)
Definition float_binop (py_op np_op : float -> float -> outcome float)
    (a b : pyval) : pyres :=
  x <- to_double a ;;
  y <- to_double b ;;
  if is_np a || is_np b
  then r <- np_op x y ;; Ret (NpFloat64 r)
  else r <- py_op x y ;; Ret (PyFloat r).

Definition ieee (op : float -> float -> float) (x y : float) : outcome float :=
  Ret (op x y).

Definition val_add (a b : pyval) : pyres :=
  match a, b with
  | PyInt x, PyInt y => Ret (PyInt (x + y))
  | _, _ => float_binop (ieee add) (ieee add) a b
  end.

Definition val_sub (a b : pyval) : pyres :=
  match a, b with
  | PyInt x, PyInt y => Ret (PyInt (x - y))
  | _, _ => float_binop (ieee sub) (ieee sub) a b
  end.

Definition val_mul (a b : pyval) : pyres :=
  match a, b with
  | PyInt x, PyInt y => Ret (PyInt (x * y))
  | _, _ => float_binop (ieee mul) (ieee mul) a b
  end.

(** [float.__truediv__]: a zero divisor raises. *)
Definition float_truediv (x y : float) : outcome float :=
  if is_zero y then Raise ZeroDivisionError else Ret (x / y)%float.

(** An int as an unrounded binary number. *)
Definition spec_of_Z (z : Z) : spec_float :=
  match z with
  | Z0 => S754_zero false
  | Zpos p => S754_finite false p 0
  | Zneg p => S754_finite true p 0
  end.

(** [int.__truediv__]: a zero divisor raises; otherwise the quotient of
    the two integers, rounded once; a quotient beyond the range of
    binary64 does not convert. *)
Definition int_truediv (x y : Z) : outcome float :=
  if (y =? 0)%Z then Raise ZeroDivisionError
  else
    let q := SF2Prim (SFdiv prec emax (spec_of_Z x) (spec_of_Z y)) in
    if is_infinity q then Raise OverflowError else Ret q.

Definition val_truediv (a b : pyval) : pyres :=
  match a, b with
  | PyInt x, PyInt y => r <- int_truediv x y ;; Ret (PyFloat r)
  | _, _ => float_binop float_truediv (ieee div) a b
  end.

Definition val_neg (a : pyval) : pyres :=
  match a with
  | PyInt x => Ret (PyInt (- x))
  | PyFloat x => Ret (PyFloat (- x)%float)
  | NpFloat64 x => Ret (NpFloat64 (- x)%float)
  end.

(** [a**2]: exact on ints; [float.__pow__] raises when a finite base
    overflows; NumPy squares in IEEE arithmetic. *)
Definition val_sq (a : pyval) : pyres :=
  match a with
  | PyInt x => Ret (PyInt (x ^ 2))
  | PyFloat x =>
      let r := (x * x)%float in
      if is_finite x && is_infinity r then Raise OverflowError
      else Ret (PyFloat r)
  | NpFloat64 x => Ret (NpFloat64 (x * x)%float)
  end.

(** [np.sqrt]: the argument becomes a float64 (an int only when it fits
    a 64-bit integer type); a negative argument gives NaN. *)
Definition val_sqrt (a : pyval) : pyres :=
  match a with
  | PyInt z =>
      if ((- 2 ^ 63 <=? z) && (z <? 2 ^ 64))%Z
      then Ret (NpFloat64 (sqrt (float_of_Z z)))
      else Raise TypeError
  | PyFloat x => Ret (NpFloat64 (sqrt x))
  | NpFloat64 x => Ret (NpFloat64 (sqrt x))
  end.

Definition on1 (op : pyval -> pyres) (a : pyres) : pyres :=
  x <- a ;; op x.

(** Operands are evaluated left to right; the first exception wins. *)
Definition on2 (op : pyval -> pyval -> pyres) (a b : pyres) : pyres :=
  x <- a ;; y <- b ;; op x y.

#[export] Instance pyres_PyNum : PyNum pyres := {
  py_add := on2 val_add;
  py_sub := on2 val_sub;
  py_mul := on2 val_mul;
  py_truediv := on2 val_truediv;
  py_neg := on1 val_neg;
  py_sq := on1 val_sq;
  np_sqrt := on1 val_sqrt
}.

Definition int (z : Z) : pyres := Ret (PyInt z).
Definition float_ (x : float) : pyres := Ret (PyFloat x).
Definition float64 (x : float) : pyres := Ret (NpFloat64 x).

End Py.

(** ** Complex values over the real instance *)

Inductive cval : Type :=
| Cplx (re im : R)
| CNaN.

(** NumPy promotes a real operand of a complex operation. *)
Definition complex (a : rval) : cval :=
  match a with
  | Real x => Cplx x 0
  | NaN => CNaN
  end.

Coercion complex : rval >-> cval.

Definition _1j : cval := Cplx 0 1.

Definition c_add (a b : cval) : cval :=
  match a, b with
  | Cplx x1 y1, Cplx x2 y2 => Cplx (x1 + x2) (y1 + y2)
  | _, _ => CNaN
  end.

Definition c_sub (a b : cval) : cval :=
  match a, b with
  | Cplx x1 y1, Cplx x2 y2 => Cplx (x1 - x2) (y1 - y2)
  | _, _ => CNaN
  end.

Definition c_mul (a b : cval) : cval :=
  match a, b with
  | Cplx x1 y1, Cplx x2 y2 => Cplx (x1 * x2 - y1 * y2) (x1 * y2 + y1 * x2)
  | _, _ => CNaN
  end.

Definition c_neg (a : cval) : cval :=
  match a with
  | Cplx x y => Cplx (- x) (- y)
  | CNaN => CNaN
  end.

Definition c_div (a b : cval) : cval :=
  match a, b with
  | Cplx x1 y1, Cplx x2 y2 =>
      if Req_dec_T (x2 ^ 2 + y2 ^ 2) 0 then CNaN
      else Cplx ((x1 * x2 + y1 * y2) / (x2 ^ 2 + y2 ^ 2))
                ((y1 * x2 - x1 * y2) / (x2 ^ 2 + y2 ^ 2))
  | _, _ => CNaN
  end.

Declare Scope c_scope.
Delimit Scope c_scope with C.
Bind Scope c_scope with cval.
Notation "x + y" := (c_add x y) : c_scope.
Notation "x - y" := (c_sub x y) : c_scope.
Notation "x * y" := (c_mul x y) : c_scope.
Notation "x / y" := (c_div x y) : c_scope.
Notation "- x" := (c_neg x) : c_scope.

(** [np.exp], [np.real] and [np.abs] on a complex value. *)
Definition np_exp (a : cval) : cval :=
  match a with
  | Cplx x y => Cplx (exp x * cos y) (exp x * sin y)
  | CNaN => CNaN
  end.

Definition np_real (a : cval) : rval :=
  match a with
  | Cplx x _ => Real x
  | CNaN => NaN
  end.

Definition np_abs (a : cval) : rval :=
  match a with
  | Cplx x y => Real (sqrt (x ^ 2 + y ^ 2))
  | CNaN => NaN
  end.

(** ** Amplitude ratios *)

Section Amplitudes.
Local Open Scope py_scope.

Definition U_0 (phi_0 : cval) (k l om f : rval) : cval :=
  (((k * om)%py + _1j * l * f) / (om² - f²)%py * phi_0)%C.

Definition V_0 (phi_0 : cval) (k l om f : rval) : cval :=
  (((l * om)%py - _1j * k * f) / (om² - f²)%py * phi_0)%C.

Definition W_0 (phi_0 : cval) (m om N : rval) : cval :=
  ((- om * m / (N² - om²))%py * phi_0)%C.

Definition B_0 (phi_0 : cval) (m om N : rval) : cval :=
  (_1j * m * N² / (N² - om²)%py * phi_0)%C.

Definition ETA_0 (phi_0 : cval) (m om N : rval) : cval :=
  (phi_0 * _1j * m / (N² - om²)%py)%C.

(** [RHO_0(phi_0, m, om, N, g=-9.81, rho_0=1000.)] *)
Definition RHO_0 (phi_0 : cval) (m om N g rho_0 : rval) : cval :=
  (- B_0 phi_0 m om N * rho_0 / g)%C.

End Amplitudes.
(** ** Phase and field evaluation *)

Section Fields.
Local Open Scope py_scope.

(** [wave_phase(x, y, z, t, k, l, m, om, U=0., V=0., W=0., phase_0=0.)] *)
Definition wave_phase (x y z t k l m om U V W phase_0 : rval) : cval :=
  (_1j * (k * x + l * y + m * z - (om + k * U + l * V + m * W) * t + phase_0)%py)%C.

Definition phi (x y z t : rval) (phi_0 : cval) (k l m om U V W phase_0 : rval) : rval :=
  let phase := wave_phase x y z t k l m om U V W phase_0 in
  np_real (phi_0 * np_exp phase)%C.

Definition u (x y z t : rval) (phi_0 : cval) (k l m om f U V W phase_0 : rval) : rval :=
  let amplitude := U_0 phi_0 k l om f in
  let phase := wave_phase x y z t k l m om U V W phase_0 in
  np_real (amplitude * np_exp phase)%C.

Definition v (x y z t : rval) (phi_0 : cval) (k l m om f U V W phase_0 : rval) : rval :=
  let amplitude := V_0 phi_0 k l om f in
  let phase := wave_phase x y z t k l m om U V W phase_0 in
  np_real (amplitude * np_exp phase)%C.

Definition w (x y z t : rval) (phi_0 : cval) (k l m om N U V W phase_0 : rval) : rval :=
  let amplitude := W_0 phi_0 m om N in
  let phase := wave_phase x y z t k l m om U V W phase_0 in
  np_real (amplitude * np_exp phase)%C.

Definition b (x y z t : rval) (phi_0 : cval) (k l m om N U V W phase_0 : rval) : rval :=
  let amplitude := B_0 phi_0 m om N in
  let phase := wave_phase x y z t k l m om U V W phase_0 in
  np_real (amplitude * np_exp phase)%C.

(** [rho(..., phase_0=0., g=-9.81, rho_0=1000.)] *)
Definition rho (x y z t : rval) (phi_0 : cval)
    (k l m om N U V W phase_0 g rho_0 : rval) : rval :=
  let amplitude := RHO_0 phi_0 m om N g rho_0 in
  let phase := wave_phase x y z t k l m om U V W phase_0 in
  np_real (amplitude * np_exp phase)%C.

Definition eta (x y z t : rval) (phi_0 : cval) (k l m om N U V W phase_0 : rval) : rval :=
  let amplitude := ETA_0 phi_0 m om N in
  let phase := wave_phase x y z t k l m om U V W phase_0 in
  np_real (amplitude * np_exp phase)%C.

End Fields.

(** ** Position stacks

    A one-dimensional array is a list; a two-dimensional array is the list
    of its rows. *)

Section Arrays.
Context {A : Type}.

(** [r[..., j]] on a two-dimensional array: component [j] of every row;
    an index past the end of a row is an [IndexError] ([None]). *)
Fixpoint take_last (j : nat) (r : list (list A)) : option (list A) :=
  match r with
  | [] => Some []
  | row :: rest =>
      match nth_error row j, take_last j rest with
      | Some a, Some col => Some (a :: col)
      | _, _ => None
      end
  end.

(** [np.vstack] of one-dimensional arrays of equal length: one row each. *)
Definition np_vstack (rows : list (list A)) : list (list A) := rows.

Definition cons_each (col : list A) (rows : list (list A)) : list (list A) :=
  map (fun p => fst p :: snd p) (combine col rows).

Fixpoint transpose (ncols : nat) (rows : list (list A)) : list (list A) :=
  match rows with
  | [] => repeat [] ncols
  | row :: rest => cons_each row (transpose ncols rest)
  end.

(** [a.T] on a two-dimensional array. *)
Definition np_T (a : list (list A)) : list (list A) :=
  transpose (length (hd [] a)) a.

End Arrays.

Section Stacks.
Local Open Scope py_scope.

(** Element-wise application over three arrays of one shape. *)
Fixpoint broadcast3 {B : Type} (g : rval -> rval -> rval -> B)
    (xs ys zs : list rval) : list B :=
  match xs, ys, zs with
  | x :: xs', y :: ys', z :: zs' => g x y z :: broadcast3 g xs' ys' zs'
  | _, _, _ => []
  end.

(** [wave_vel(r, t, phi_0, N, f, k, l, m, om, U=0., V=0., W=0., phase_0=0.)]
    for a stack [r] of shape (P, 3) and a scalar [t]. *)
Definition wave_vel (r : list (list rval)) (t : rval) (phi_0 : cval)
    (N f k l m om U V W phase_0 : rval) : option (list (list rval)) :=
  match take_last 0 r, take_last 1 r, take_last 2 r with
  | Some x, Some y, Some z =>
      let u_amp := U_0 phi_0 k l om f in
      let v_amp := V_0 phi_0 k l om f in
      let w_amp := W_0 phi_0 m om N in
      let phase :=
        broadcast3 (fun x y z => wave_phase x y z t k l m om U V W phase_0) x y z in
      let u := map (fun ph => np_real (u_amp * np_exp ph)%C) phase in
      let v := map (fun ph => np_real (v_amp * np_exp ph)%C) phase in
      let w := map (fun ph => np_real (w_amp * np_exp ph)%C) phase in
      Some (np_T (np_vstack [u; v; w]))
  | _, _, _ => None
  end.

(** [buoy(r, t, phi_0, N, k, l, m, om, U=0., V=0., W=0., phase_0=0.)] *)
Definition buoy (r : list (list rval)) (t : rval) (phi_0 : cval)
    (N k l m om U V W phase_0 : rval) : option (list rval) :=
  match take_last 0 r, take_last 1 r, take_last 2 r with
  | Some x, Some y, Some z =>
      let b_amp := B_0 phi_0 m om N in
      let phase :=
        broadcast3 (fun x y z => wave_phase x y z t k l m om U V W phase_0) x y z in
      Some (map (fun ph => np_real (b_amp * np_exp ph)%C) phase)
  | _, _, _ => None
  end.

End Stacks.

(** ** Group velocity and geometry *)

(** [a**y] for a float exponent [y] (the module uses 1.5 and 0.5).  On a
    negative base NumPy gives NaN unless the exponent is integral; a zero
    base with a negative exponent leaves the reals. *)
Definition r_powf (a : rval) (y : R) : rval :=
  match a with
  | Real x =>
      if Rlt_dec 0 x then Real (Rpower x y)
      else if Req_dec_T x 0 then
        if Rlt_dec 0 y then Real 0
        else if Req_dec_T y 0 then Real 1
        else NaN
      else if Req_dec_T y (IZR (Int_part y)) then
        if Z.even (Int_part y) then Real (Rpower (- x) y)
        else Real (- Rpower (- x) y)
      else NaN
  | NaN => NaN
  end.

Notation "x ** y" := (r_powf x y) (at level 30, right associativity) : py_scope.

Definition np_sin : rval -> rval := r_lift1 sin.
Definition np_cos : rval -> rval := r_lift1 cos.

(** [np.arcsin]: NaN outside [-1, 1]. *)
Definition np_arcsin (a : rval) : rval :=
  match a with
  | Real x =>
      if Rle_dec (-1) x then if Rle_dec x 1 then Real (asin x) else NaN else NaN
  | NaN => NaN
  end.

(** The angle of the point [(x, y)], in (-pi, pi]. *)
Definition atan2 (y x : R) : R :=
  if Rlt_dec 0 x then atan (y / x)
  else if Rlt_dec x 0 then
    if Rle_dec 0 y then atan (y / x) + PI else atan (y / x) - PI
  else if Rlt_dec 0 y then PI / 2
  else if Rlt_dec y 0 then - (PI / 2)
  else 0.

Definition np_arctan2 : rval -> rval -> rval := r_lift2 atan2.

Section GroupVelocity.
Local Open Scope py_scope.

(** [cgz(k, m, N, l=0., f=0.)] *)
Definition cgz (k m N l f : rval) : rval :=
  let num := - m * (N² - f²) * (k² + l²) in
  let den := (k² + l² + m²) ** (3 / 2) * (f² * m² + N² * (k² + l²)) ** (1 / 2) in
  num / den.

(** [phip(k, m, l=0.)] *)
Definition phip (k m l : rval) : rval :=
  np_arcsin (np_sqrt (m² / (k² + l² + m²))).

Definition lambdap (k l : rval) : rval :=
  np_arctan2 l k.

(** [alpha(k, m, l=0.)] *)
Definition alpha (k m l : rval) : rval :=
  np_sqrt ((k² + l²) / m²).

Definition cgvec (k l m N f : rval) : list rval :=
  let om := omega N k m l f in
  let phi := phip k m l in
  let lamb := lambdap k l in
  let mag := np_cos phi * np_sin phi * (N² - f²) / (om * np_sqrt (k² + l² + m²)) in
  let dir := [np_sin phi * np_cos lamb; np_sin phi * np_sin lamb; - np_cos phi] in
  map (fun d => mag * d) dir.

End GroupVelocity.

(** ** Energy and momentum fluxes *)

Section Fluxes.
Local Open Scope py_scope.

(** [Edens(w_0, k, m, l=0., rho_0=1025.)] *)
Definition Edens (w_0 k m l rho_0 : rval) : rval :=
  let phi := phip k m l in
  Real (1 / 2) * rho_0 * (w_0 / np_cos phi)².

(** [Efluxz(w_0, k, m, N, l=0., f=0., rho_0=1025.)] *)
Definition Efluxz (w_0 k m N l f rho_0 : rval) : rval :=
  Edens w_0 k m l rho_0 * cgz k m N l f.

(** [Mfluxz(phi_0, k, l, m, om, N, f=0., rho_0=1025.)] *)
Definition Mfluxz (phi_0 : cval) (k l m om N f rho_0 : rval) : rval :=
  let u_amp := np_abs (U_0 phi_0 k l om f) in
  let v_amp := np_abs (V_0 phi_0 k l om f) in
  let w_amp := np_abs (W_0 phi_0 m om N) in
  Real (1 / 2) * rho_0 * np_sqrt ((u_amp * w_amp)² + (v_amp * w_amp)²).

End Fluxes.

(** * Properties *)

(** ** Real arithmetic used below *)

Lemma sum_sq_zero (k l m : R) :
  k ^ 2 + l ^ 2 + m ^ 2 = 0 -> k = 0 /\ l = 0 /\ m = 0.
Proof.
  intros Hs.
  assert (Hk := pow2_ge_0 k). assert (Hl := pow2_ge_0 l). assert (Hm := pow2_ge_0 m).
  repeat split; apply Rsqr_0_uniq; unfold Rsqr; nra.
Qed.

Lemma sum_sq_pos (k l m : R) :
  ~ (k = 0 /\ l = 0 /\ m = 0) -> 0 < k ^ 2 + l ^ 2 + m ^ 2.
Proof.
  intros Hne.
  assert (Hk := pow2_ge_0 k). assert (Hl := pow2_ge_0 l). assert (Hm := pow2_ge_0 m).
  destruct (Req_dec (k ^ 2 + l ^ 2 + m ^ 2) 0) as [Hz | Hz]; [|lra].
  exfalso. apply Hne. now apply sum_sq_zero.
Qed.

Lemma dispersion_numerator_nonneg (N k m l f : R) :
  0 <= f ^ 2 * m ^ 2 + N ^ 2 * (k ^ 2 + l ^ 2).
Proof.
  assert (Hk := pow2_ge_0 k). assert (Hl := pow2_ge_0 l). assert (Hm := pow2_ge_0 m).
  assert (Hf := pow2_ge_0 f). assert (HN := pow2_ge_0 N).
  nra.
Qed.

Lemma quotient_nonneg (a c : R) : 0 <= a -> 0 < c -> 0 <= a / c.
Proof.
  intros Ha Hc. unfold Rdiv. apply Rmult_le_pos; [assumption|].
  left. now apply Rinv_0_lt_compat.
Qed.

(** ** Evaluation of the lifted operations *)

Lemma r_div_real (x y : R) : y <> 0 -> r_div (Real x) (Real y) = Real (x / y).
Proof.
  intros Hy. unfold r_div. destruct (Req_dec_T y 0) as [E | _]; [contradiction | reflexivity].
Qed.

Lemma r_div_zero (x : R) : r_div (Real x) (Real 0) = NaN.
Proof.
  unfold r_div. destruct (Req_dec_T 0 0) as [_ | E]; [reflexivity | now elim E].
Qed.

Lemma r_sqrt_real (x : R) : 0 <= x -> r_sqrt (Real x) = Real (sqrt x).
Proof.
  intros Hx. unfold r_sqrt. destruct (Rlt_dec x 0) as [Hlt | _]; [lra | reflexivity].
Qed.

(** The dispersion relation away from the origin of wavenumber space. *)
Lemma omega_real (N k m l f : R) :
  ~ (k = 0 /\ l = 0 /\ m = 0) ->
  omega (Real N) (Real k) (Real m) (Real l) (Real f)
  = Real (sqrt ((f ^ 2 * m ^ 2 + N ^ 2 * (k ^ 2 + l ^ 2)) / (k ^ 2 + l ^ 2 + m ^ 2))).
Proof.
  intros Hne. pose proof (sum_sq_pos k l m Hne) as Hpos.
  unfold omega. cbn [py_add py_mul py_truediv py_sq np_sqrt r_PyNum r_lift1 r_lift2].
  rewrite r_div_real by lra.
  apply r_sqrt_real, quotient_nonneg; [apply dispersion_numerator_nonneg | assumption].
Qed.

Lemma omega_origin (N f : R) :
  omega (Real N) (Real 0) (Real 0) (Real 0) (Real f) = NaN.
Proof.
  unfold omega. cbn [py_add py_mul py_truediv py_sq np_sqrt r_PyNum r_lift1 r_lift2].
  replace (0 ^ 2 + 0 ^ 2 + 0 ^ 2) with 0 by ring.
  now rewrite r_div_zero.
Qed.

(** C1 (as stated): at the origin of wavenumber space the quotient is 0/0
    and [omega] does not return the real number the formula names. *)
Lemma omega_formula_fails_at_origin :
  omega (Real 1) (Real 0) (Real 0) (Real 0) (Real 0)
  <> Real (sqrt ((0 ^ 2 * 0 ^ 2 + 1 ^ 2 * (0 ^ 2 + 0 ^ 2)) / (0 ^ 2 + 0 ^ 2 + 0 ^ 2))).
Proof.
  rewrite omega_origin. discriminate.
Qed.

(** C1 (amended): for every real N, k, m, l, f with (k, l, m) not all zero,
    [omega] returns sqrt((f^2 m^2 + N^2 (k^2 + l^2)) / (k^2 + l^2 + m^2)),
    the nonnegative square root. *)
Theorem omega_dispersion_formula (N k m l f : R) :
  ~ (k = 0 /\ l = 0 /\ m = 0) ->
  omega (Real N) (Real k) (Real m) (Real l) (Real f)
  = Real (sqrt ((f ^ 2 * m ^ 2 + N ^ 2 * (k ^ 2 + l ^ 2)) / (k ^ 2 + l ^ 2 + m ^ 2)))
  /\ 0 <= sqrt ((f ^ 2 * m ^ 2 + N ^ 2 * (k ^ 2 + l ^ 2)) / (k ^ 2 + l ^ 2 + m ^ 2)).
Proof.
  intros Hne. split; [now apply omega_real | apply sqrt_pos].
Qed.

Lemma omega_dispersion_formula_witness :
  ~ (3 = 0 /\ 0 = 0 /\ 4 = 0) /\
  omega (Real 2) (Real 3) (Real 4) (Real 0) (Real 1)
  = Real (sqrt ((1 ^ 2 * 4 ^ 2 + 2 ^ 2 * (3 ^ 2 + 0 ^ 2)) / (3 ^ 2 + 0 ^ 2 + 4 ^ 2)))
  /\ 0 <= sqrt ((1 ^ 2 * 4 ^ 2 + 2 ^ 2 * (3 ^ 2 + 0 ^ 2)) / (3 ^ 2 + 0 ^ 2 + 4 ^ 2)).
Proof.
  assert (Hne : ~ (3 = 0 /\ 0 = 0 /\ 4 = 0)) by (intros [H3 _]; lra).
  split; [exact Hne | exact (omega_dispersion_formula 2 3 4 0 1 Hne)].
Defined.

(** ** The non-rotating limit *)

Lemma sqrt_unique (x y : R) : 0 <= y -> y * y = x -> sqrt x = y.
Proof.
  intros Hy <-. now apply sqrt_square.
Qed.

Lemma nonrotating_radicand (N k m : R) :
  ~ (k = 0 /\ m = 0) ->
  sqrt ((0 ^ 2 * m ^ 2 + N ^ 2 * (k ^ 2 + 0 ^ 2)) / (k ^ 2 + 0 ^ 2 + m ^ 2))
  = Rabs N * Rabs k / sqrt (k ^ 2 + m ^ 2).
Proof.
  intros Hne.
  assert (Hpos : 0 < k ^ 2 + m ^ 2).
  { pose proof (sum_sq_pos k 0 m) as Hp.
    replace (k ^ 2 + 0 ^ 2 + m ^ 2) with (k ^ 2 + m ^ 2) in Hp by ring.
    apply Hp. intros (Hk & _ & Hm). now apply Hne. }
  assert (Hs : 0 < sqrt (k ^ 2 + m ^ 2)) by now apply sqrt_lt_R0.
  assert (Hss : sqrt (k ^ 2 + m ^ 2) * sqrt (k ^ 2 + m ^ 2) = k ^ 2 + m ^ 2)
    by (apply sqrt_sqrt; lra).
  apply sqrt_unique.
  - apply quotient_nonneg; [|assumption].
    apply Rmult_le_pos; apply Rabs_pos.
  - assert (HN : Rabs N * Rabs N = N ^ 2)
      by (rewrite <- Rabs_mult, Rabs_right; [ring | nra]).
    assert (Hk : Rabs k * Rabs k = k ^ 2)
      by (rewrite <- Rabs_mult, Rabs_right; [ring | nra]).
    replace (Rabs N * Rabs k / sqrt (k ^ 2 + m ^ 2)
             * (Rabs N * Rabs k / sqrt (k ^ 2 + m ^ 2)))
      with ((Rabs N * Rabs N) * (Rabs k * Rabs k)
            / (sqrt (k ^ 2 + m ^ 2) * sqrt (k ^ 2 + m ^ 2)))
      by (field; lra).
    rewrite HN, Hk, Hss. field. lra.
Qed.

(** C2 (as stated): with a negative buoyancy frequency the square root is
    still the nonnegative one, while N |k| / sqrt(k^2 + m^2) is negative. *)
Lemma omega_nonrotating_fails_for_negative_N :
  omega (Real (-1)) (Real 1) (Real 0) (Real 0) (Real 0) = Real 1
  /\ omega (Real (-1)) (Real 1) (Real 0) (Real 0) (Real 0)
     <> Real (-1 * Rabs 1 / sqrt (1 ^ 2 + 0 ^ 2)).
Proof.
  assert (Hne : ~ (1 = 0 /\ 0 = 0 /\ 0 = 0)) by (intros [H1 _]; lra).
  assert (E : omega (Real (-1)) (Real 1) (Real 0) (Real 0) (Real 0) = Real 1).
  { rewrite (omega_real (-1) 1 0 0 0 Hne). f_equal.
    apply sqrt_unique; [lra | field]. }
  split; [exact E|].
  assert (Hs : sqrt (1 ^ 2 + 0 ^ 2) = 1)
    by (replace (1 ^ 2 + 0 ^ 2) with 1 by ring; apply sqrt_1).
  rewrite E, Hs, Rabs_R1. intros Heq. injection Heq as Heq. lra.
Qed.

(** C2 (amended): for all real N, k, m with f = 0 and l = 0 and (k, m) not
    both zero, omega(N, k, m) equals |N| |k| / sqrt(k^2 + m^2), which is
    N |k| / sqrt(k^2 + m^2) when N >= 0; for N = 0.01, k = 0.001, l = 0,
    m = -0.002, f = 0 it equals sqrt(N^2 k^2 / (k^2 + m^2)). *)
Theorem omega_nonrotating (N k m : R) :
  ~ (k = 0 /\ m = 0) ->
  omega (Real N) (Real k) (Real m) (Real 0) (Real 0)
  = Real (Rabs N * Rabs k / sqrt (k ^ 2 + m ^ 2))
  /\ (0 <= N ->
      omega (Real N) (Real k) (Real m) (Real 0) (Real 0)
      = Real (N * Rabs k / sqrt (k ^ 2 + m ^ 2)))
  /\ omega (Real (1 / 100)) (Real (1 / 1000)) (Real (- 2 / 1000)) (Real 0) (Real 0)
     = Real (sqrt ((1 / 100) ^ 2 * (1 / 1000) ^ 2
                   / ((1 / 1000) ^ 2 + (- 2 / 1000) ^ 2))).
Proof.
  intros Hne.
  assert (Hne3 : ~ (k = 0 /\ 0 = 0 /\ m = 0)) by (intros (Hk & _ & Hm); now apply Hne).
  assert (E : omega (Real N) (Real k) (Real m) (Real 0) (Real 0)
              = Real (Rabs N * Rabs k / sqrt (k ^ 2 + m ^ 2))).
  { rewrite (omega_real N k m 0 0 Hne3). f_equal. now apply nonrotating_radicand. }
  repeat split.
  - exact E.
  - intros HN. rewrite E, (Rabs_right N) by lra. reflexivity.
  - rewrite omega_real by (intros [Hk _]; lra).
    do 2 f_equal. field.
Qed.

Lemma omega_nonrotating_witness :
  ~ (3 = 0 /\ 4 = 0) /\
  omega (Real 2) (Real 3) (Real 4) (Real 0) (Real 0)
  = Real (Rabs 2 * Rabs 3 / sqrt (3 ^ 2 + 4 ^ 2))
  /\ omega (Real 2) (Real 3) (Real 4) (Real 0) (Real 0)
     = Real (2 * Rabs 3 / sqrt (3 ^ 2 + 4 ^ 2)).
Proof.
  assert (Hne : ~ (3 = 0 /\ 4 = 0)) by (intros [H3 _]; lra).
  assert (HN : 0 <= 2) by lra.
  split; [exact Hne|]. split.
  - exact (proj1 (omega_nonrotating 2 3 4 Hne)).
  - exact (proj1 (proj2 (omega_nonrotating 2 3 4 Hne)) HN).
Defined.

(** C3: for every real N, k, m, l, f with (k, l, m) not all zero, [omega]
    returns a real number and that number is nonnegative. *)
Theorem omega_nonnegative (N k m l f : R) :
  ~ (k = 0 /\ l = 0 /\ m = 0) ->
  exists r : R,
    omega (Real N) (Real k) (Real m) (Real l) (Real f) = Real r /\ 0 <= r.
Proof.
  intros Hne. eexists. split; [now apply omega_real | apply sqrt_pos].
Qed.

Lemma omega_nonnegative_witness :
  ~ (0 = 0 /\ 0 = 0 /\ -5 = 0) /\
  exists r : R,
    omega (Real (-7)) (Real 0) (Real (-5)) (Real 0) (Real 3) = Real r /\ 0 <= r.
Proof.
  assert (Hne : ~ (0 = 0 /\ 0 = 0 /\ -5 = 0)) by (intros (_ & _ & H5); lra).
  split; [exact Hne | exact (omega_nonnegative (-7) 0 (-5) 0 3 Hne)].
Defined.

(** ** Amplitude ratios without rotation *)

Ltac r_eval :=
  cbn [py_add py_sub py_mul py_truediv py_neg py_sq np_sqrt r_PyNum
       r_lift1 r_lift2 complex _1j c_add c_sub c_mul c_neg np_real np_exp].

Lemma c_div_real (x1 y1 x2 y2 : R) :
  x2 ^ 2 + y2 ^ 2 <> 0 ->
  c_div (Cplx x1 y1) (Cplx x2 y2)
  = Cplx ((x1 * x2 + y1 * y2) / (x2 ^ 2 + y2 ^ 2))
         ((y1 * x2 - x1 * y2) / (x2 ^ 2 + y2 ^ 2)).
Proof.
  intros Hd. unfold c_div.
  destruct (Req_dec_T (x2 ^ 2 + y2 ^ 2) 0) as [E | _]; [contradiction | reflexivity].
Qed.

Lemma c_div_zero (x1 y1 : R) : c_div (Cplx x1 y1) (Cplx 0 0) = CNaN.
Proof.
  unfold c_div.
  destruct (Req_dec_T (0 ^ 2 + 0 ^ 2) 0) as [_ | E]; [reflexivity | elim E; ring].
Qed.

Lemma Cplx_eq (x1 y1 x2 y2 : R) : x1 = x2 -> y1 = y2 -> Cplx x1 y1 = Cplx x2 y2.
Proof. now intros -> ->. Qed.

(** C4: with f = 0 and om nonzero, U_0 = (k/om) phi_0 and
    V_0 = (l/om) phi_0 for every complex phi_0 and real k, l, om. *)
Theorem amplitudes_without_rotation (re im k l om : R) :
  om <> 0 ->
  U_0 (Cplx re im) (Real k) (Real l) (Real om) (Real 0)
  = ((Real k / Real om)%py * Cplx re im)%C
  /\ V_0 (Cplx re im) (Real k) (Real l) (Real om) (Real 0)
     = ((Real l / Real om)%py * Cplx re im)%C
  /\ ((Real k / Real om)%py * Cplx re im)%C = Cplx (k / om * re) (k / om * im)
  /\ ((Real l / Real om)%py * Cplx re im)%C = Cplx (l / om * re) (l / om * im).
Proof.
  intros Hom.
  assert (Hd : (om ^ 2 - 0 ^ 2) ^ 2 + 0 ^ 2 <> 0).
  { replace ((om ^ 2 - 0 ^ 2) ^ 2 + 0 ^ 2) with ((om * om) * (om * om)) by ring.
    repeat apply Rmult_integral_contrapositive_currified; assumption. }
  unfold U_0, V_0. r_eval.
  rewrite !c_div_real by exact Hd. rewrite !r_div_real by exact Hom. r_eval.
  repeat split; apply Cplx_eq; field; assumption.
Qed.

Lemma amplitudes_without_rotation_witness :
  2 <> 0 /\
  U_0 (Cplx 1 (-1)) (Real 3) (Real 5) (Real 2) (Real 0)
  = ((Real 3 / Real 2)%py * Cplx 1 (-1))%C.
Proof.
  assert (Hom : 2 <> 0) by lra.
  split; [exact Hom | exact (proj1 (amplitudes_without_rotation 1 (-1) 3 5 2 Hom))].
Defined.

(** ** The phase is imaginary *)

Lemma wave_phase_real (x y z t k l m om U V W phase_0 : R) :
  wave_phase (Real x) (Real y) (Real z) (Real t) (Real k) (Real l) (Real m)
    (Real om) (Real U) (Real V) (Real W) (Real phase_0)
  = Cplx 0 (k * x + l * y + m * z - (om + k * U + l * V + m * W) * t + phase_0).
Proof.
  unfold wave_phase. r_eval. apply Cplx_eq; ring.
Qed.

Lemma np_exp_imaginary (theta : R) : np_exp (Cplx 0 theta) = Cplx (cos theta) (sin theta).
Proof.
  cbn [np_exp]. rewrite exp_0. apply Cplx_eq; ring.
Qed.

Lemma rotation_bound (a1 a2 theta : R) :
  Rabs (a1 * cos theta - a2 * sin theta) <= sqrt (a1 ^ 2 + a2 ^ 2).
Proof.
  rewrite <- sqrt_Rsqr_abs. apply sqrt_le_1_alt. unfold Rsqr.
  pose proof (sin2_cos2 theta) as H1. unfold Rsqr in H1.
  pose proof (pow2_ge_0 (a1 * sin theta + a2 * cos theta)) as H2.
  replace (a1 ^ 2 + a2 ^ 2)
    with ((a1 ^ 2 + a2 ^ 2) * (sin theta * sin theta + cos theta * cos theta))
    by (rewrite H1; ring).
  nra.
Qed.

(** ** Density and buoyancy *)

(** Scaling an amplitude by [-rho_0/g] scales the evaluated field. *)
Lemma scaled_amplitude_field (A ph : cval) (rho_0 g : rval) :
  np_real (- A * rho_0 / g * np_exp ph)%C
  = (- np_real (A * np_exp ph)%C * rho_0 / g)%py.
Proof.
  destruct A as [a1 a2|], ph as [p1 p2|], rho_0 as [r0|], g as [g0|];
    r_eval; try reflexivity.
  - destruct (Req_dec g0 0) as [-> | Hg].
    + rewrite c_div_zero, r_div_zero. reflexivity.
    + rewrite c_div_real, r_div_real; [| assumption |].
      * r_eval. f_equal. field. assumption.
      * replace (g0 ^ 2 + 0 ^ 2) with (g0 * g0) by ring.
        now apply Rmult_integral_contrapositive_currified.
  - unfold c_div. destruct (Req_dec_T (g0 ^ 2 + 0 ^ 2) 0); reflexivity.
Qed.

(** Away from the singular parameters both sides are the same real number. *)
Lemma b_real (x y z t re im k l m om N U V W phase_0 : R) :
  N ^ 2 - om ^ 2 <> 0 ->
  exists r : R,
    b (Real x) (Real y) (Real z) (Real t) (Cplx re im) (Real k) (Real l) (Real m)
      (Real om) (Real N) (Real U) (Real V) (Real W) (Real phase_0) = Real r.
Proof.
  intros Hd. unfold b, B_0. cbv zeta. rewrite wave_phase_real. r_eval.
  rewrite c_div_real.
  - r_eval. eexists. reflexivity.
  - replace ((N ^ 2 - om ^ 2) ^ 2 + 0 ^ 2) with ((N ^ 2 - om ^ 2) * (N ^ 2 - om ^ 2)) by ring.
    now apply Rmult_integral_contrapositive_currified.
Qed.

(** C5: for every common choice of arguments, the output of [rho] equals
    [-b * rho_0 / g], with [b] evaluated at the same arguments. *)
Theorem rho_from_b (x y z t : rval) (phi_0 : cval)
    (k l m om N U V W phase_0 g rho_0 : rval) :
  rho x y z t phi_0 k l m om N U V W phase_0 g rho_0
  = (- b x y z t phi_0 k l m om N U V W phase_0 * rho_0 / g)%py.
Proof.
  unfold rho, b, RHO_0. cbv zeta. apply scaled_amplitude_field.
Qed.

(** ** Polar angle of the wavevector *)

Lemma asin_nonneg (x : R) : 0 <= x <= 1 -> 0 <= asin x <= PI / 2.
Proof.
  intros [H0 H1].
  pose proof (asin_bound x) as [Hlo Hhi].
  split; [|exact Hhi].
  destruct (Rle_or_lt 0 (asin x)) as [Hge | Hlt]; [exact Hge|].
  exfalso.
  assert (Hs : sin (asin x) < 0) by (apply sin_lt_0_var; [pose proof PI_RGT_0; lra | exact Hlt]).
  rewrite sin_asin in Hs by lra. lra.
Qed.

Lemma vertical_fraction_bounds (k m l : R) :
  ~ (k = 0 /\ l = 0 /\ m = 0) ->
  0 <= m ^ 2 / (k ^ 2 + l ^ 2 + m ^ 2) <= 1.
Proof.
  intros Hne. pose proof (sum_sq_pos k l m Hne) as Hpos.
  assert (Hk := pow2_ge_0 k). assert (Hl := pow2_ge_0 l). assert (Hm := pow2_ge_0 m).
  split.
  - now apply quotient_nonneg.
  - apply (Rmult_le_reg_r (k ^ 2 + l ^ 2 + m ^ 2)); [assumption|].
    unfold Rdiv. rewrite Rmult_assoc, Rinv_l by lra. lra.
Qed.

Lemma sin_phip_bounds (k m l : R) :
  ~ (k = 0 /\ l = 0 /\ m = 0) ->
  0 <= sqrt (m ^ 2 / (k ^ 2 + l ^ 2 + m ^ 2)) <= 1.
Proof.
  intros Hne. pose proof (vertical_fraction_bounds k m l Hne) as [H0 H1].
  split; [apply sqrt_pos|].
  rewrite <- sqrt_1. now apply sqrt_le_1_alt.
Qed.

Lemma np_arcsin_real (x : R) : -1 <= x <= 1 -> np_arcsin (Real x) = Real (asin x).
Proof.
  intros [Hlo Hhi]. unfold np_arcsin.
  destruct (Rle_dec (-1) x); [|contradiction].
  destruct (Rle_dec x 1); [reflexivity | contradiction].
Qed.

Lemma phip_real (k m l : R) :
  ~ (k = 0 /\ l = 0 /\ m = 0) ->
  phip (Real k) (Real m) (Real l)
  = Real (asin (sqrt (m ^ 2 / (k ^ 2 + l ^ 2 + m ^ 2)))).
Proof.
  intros Hne. pose proof (sum_sq_pos k l m Hne) as Hpos.
  pose proof (vertical_fraction_bounds k m l Hne) as [H0 H1].
  pose proof (sin_phip_bounds k m l Hne) as [Hs0 Hs1].
  unfold phip. r_eval.
  rewrite r_div_real by lra. rewrite r_sqrt_real by assumption.
  apply np_arcsin_real. lra.
Qed.

(** C6: for every real k, m, l with (k, l, m) not all zero, [phip] equals
    arcsin(sqrt(m^2 / (k^2 + l^2 + m^2))) and lies in [0, pi/2];
    phip(1, 1, 0) equals pi/4. *)
Theorem phip_formula_and_range (k m l : R) :
  ~ (k = 0 /\ l = 0 /\ m = 0) ->
  phip (Real k) (Real m) (Real l)
  = Real (asin (sqrt (m ^ 2 / (k ^ 2 + l ^ 2 + m ^ 2))))
  /\ 0 <= asin (sqrt (m ^ 2 / (k ^ 2 + l ^ 2 + m ^ 2))) <= PI / 2
  /\ phip (Real 1) (Real 1) (Real 0) = Real (PI / 4).
Proof.
  intros Hne. split; [|split].
  - now apply phip_real.
  - apply asin_nonneg. now apply sin_phip_bounds.
  - rewrite phip_real by (intros [H1 _]; lra).
    f_equal. rewrite <- asin_inv_sqrt2. f_equal.
    replace (1 ^ 2 / (1 ^ 2 + 0 ^ 2 + 1 ^ 2)) with (/ 2) by field.
    apply sqrt_inv.
Qed.

Lemma phip_formula_and_range_witness :
  ~ (3 = 0 /\ 0 = 0 /\ -4 = 0) /\
  phip (Real 3) (Real (-4)) (Real 0)
  = Real (asin (sqrt ((-4) ^ 2 / (3 ^ 2 + 0 ^ 2 + (-4) ^ 2))))
  /\ 0 <= asin (sqrt ((-4) ^ 2 / (3 ^ 2 + 0 ^ 2 + (-4) ^ 2))) <= PI / 2
  /\ phip (Real 1) (Real 1) (Real 0) = Real (PI / 4).
Proof.
  assert (Hne : ~ (3 = 0 /\ 0 = 0 /\ -4 = 0)) by (intros [H3 _]; lra).
  split; [exact Hne | exact (phip_formula_and_range 3 (-4) 0 Hne)].
Defined.

(** ** Position stacks *)

Section ArrayFacts.
Context {A : Type}.

Lemma take_last_in_range (j : nat) (d : A) (r : list (list A)) :
  Forall (fun row => (j < length row)%nat) r ->
  take_last j r = Some (map (fun row => nth j row d) r).
Proof.
  induction 1 as [| row rest Hrow _ IH]; cbn [take_last map]; [reflexivity|].
  rewrite IH, (nth_error_nth' row d Hrow). reflexivity.
Qed.

Lemma cons_each_map {X : Type} (f : X -> A) (g : X -> list A) (l : list X) :
  cons_each (map f l) (map g l) = map (fun a => f a :: g a) l.
Proof.
  unfold cons_each.
  induction l as [| a l IH]; cbn [map combine fst snd]; [reflexivity|].
  now rewrite IH.
Qed.

Lemma repeat_as_map {X : Type} (c : list A) (l : list X) :
  repeat c (length l) = map (fun _ => c) l.
Proof.
  induction l as [| a l IH]; cbn [length repeat map]; [reflexivity | now rewrite IH].
Qed.

(** Stacking three arrays computed from one index set and transposing
    gives one row of three per index. *)
Lemma np_T_vstack3 {X : Type} (f g h : X -> A) (l : list X) :
  np_T (np_vstack [map f l; map g l; map h l]) = map (fun a => [f a; g a; h a]) l.
Proof.
  unfold np_T, np_vstack. cbn [hd transpose].
  rewrite length_map, repeat_as_map.
  now rewrite !cons_each_map.
Qed.

End ArrayFacts.

Lemma broadcast3_map {X B : Type} (g : rval -> rval -> rval -> B)
    (fx fy fz : X -> rval) (l : list X) :
  broadcast3 g (map fx l) (map fy l) (map fz l)
  = map (fun a => g (fx a) (fy a) (fz a)) l.
Proof.
  induction l as [| a l IH]; cbn [map broadcast3]; [reflexivity | now rewrite IH].
Qed.

(** The velocity stack, row by row. *)
Lemma wave_vel_as_map (r : list (list rval)) (t : rval) (phi_0 : cval)
    (N f k l m om U V W phase_0 : rval) :
  Forall (fun row => length row = 3%nat) r ->
  wave_vel r t phi_0 N f k l m om U V W phase_0
  = Some (map (fun row =>
                 [u (nth 0 row NaN) (nth 1 row NaN) (nth 2 row NaN) t
                    phi_0 k l m om f U V W phase_0;
                  v (nth 0 row NaN) (nth 1 row NaN) (nth 2 row NaN) t
                    phi_0 k l m om f U V W phase_0;
                  w (nth 0 row NaN) (nth 1 row NaN) (nth 2 row NaN) t
                    phi_0 k l m om N U V W phase_0]) r).
Proof.
  intros Hshape. unfold wave_vel.
  rewrite (take_last_in_range 0 NaN), (take_last_in_range 1 NaN),
    (take_last_in_range 2 NaN);
    try (eapply Forall_impl; [|exact Hshape]; cbv beta; intros row ->; repeat constructor).
  cbv zeta. rewrite broadcast3_map, !map_map, np_T_vstack3. reflexivity.
Qed.

(** C7: for a position stack [r] of shape (P, 3) and a scalar [t],
    [wave_vel] returns an array of shape (P, 3) whose row p is (u, v, w)
    evaluated at the point (r[p,0], r[p,1], r[p,2], t) with the same wave
    parameters, [u] and [v] receiving [f] and [w] receiving [N]. *)
Theorem wave_vel_shape_and_rows (r : list (list rval)) (t : rval) (phi_0 : cval)
    (N f k l m om U V W phase_0 : rval) :
  Forall (fun row => length row = 3%nat) r ->
  exists out : list (list rval),
    wave_vel r t phi_0 N f k l m om U V W phase_0 = Some out
    /\ length out = length r
    /\ Forall (fun row => length row = 3%nat) out
    /\ forall (p : nat) (x y z : rval),
         nth_error r p = Some [x; y; z] ->
         nth_error out p
         = Some [u x y z t phi_0 k l m om f U V W phase_0;
                 v x y z t phi_0 k l m om f U V W phase_0;
                 w x y z t phi_0 k l m om N U V W phase_0].
Proof.
  intros Hshape. eexists. split; [now apply wave_vel_as_map|].
  split; [apply length_map|]. split.
  - apply Forall_map, Forall_forall. reflexivity.
  - intros p x y z Hp.
    now rewrite (map_nth_error _ _ _ Hp).
Qed.

Lemma wave_vel_shape_and_rows_witness :
  Forall (fun row => length row = 3%nat) [[Real 0; Real 1; Real 2]; [Real 5; Real 0; Real (-1)]] /\
  exists out : list (list rval),
    wave_vel [[Real 0; Real 1; Real 2]; [Real 5; Real 0; Real (-1)]] (Real 10) (Cplx 1 0)
      (Real 3) (Real 1) (Real 1) (Real 0) (Real 1) (Real 2)
      (Real 0) (Real 0) (Real 0) (Real 0) = Some out
    /\ length out = 2%nat.
Proof.
  assert (Hshape : Forall (fun row => length row = 3%nat)
                     [[Real 0; Real 1; Real 2]; [Real 5; Real 0; Real (-1)]])
    by (repeat constructor).
  split; [exact Hshape|].
  destruct (wave_vel_shape_and_rows _ (Real 10) (Cplx 1 0)
              (Real 3) (Real 1) (Real 1) (Real 0) (Real 1) (Real 2)
              (Real 0) (Real 0) (Real 0) (Real 0) Hshape) as (out & Hout & Hlen & _).
  exists out. split; [exact Hout | exact Hlen].
Defined.

(** ** Vertical group velocity *)

Lemma r_powf_pos (x y : R) : 0 < x -> r_powf (Real x) y = Real (Rpower x y).
Proof.
  intros Hx. unfold r_powf. destruct (Rlt_dec 0 x); [reflexivity | contradiction].
Qed.

Lemma Rpower_half (x : R) : 0 < x -> Rpower x (1 / 2) = sqrt x.
Proof.
  intros Hx. replace (1 / 2) with (/ 2) by field. now apply Rpower_sqrt.
Qed.

Lemma Rpower_three_halves (x : R) : 0 < x -> Rpower x (3 / 2) = x * sqrt x.
Proof.
  intros Hx. replace (3 / 2) with (1 + / 2) by field.
  now rewrite Rpower_plus, Rpower_1, Rpower_sqrt.
Qed.

Lemma r_powf_zero (y : R) : 0 < y -> r_powf (Real 0) y = Real 0.
Proof.
  intros Hy. unfold r_powf.
  destruct (Rlt_dec 0 0) as [H0 | _]; [lra|].
  destruct (Req_dec_T 0 0) as [_ | H0]; [|now elim H0].
  destruct (Rlt_dec 0 y); [reflexivity | contradiction].
Qed.

(** The denominator of [cgz] on real arguments: with (k, l) not both zero
    it vanishes exactly when f^2 m^2 + N^2 (k^2 + l^2) does. *)
Lemma cgz_denominator (k m N l f : R) :
  ~ (k = 0 /\ l = 0) ->
  (((Real k)² + (Real l)² + (Real m)²) ** (3 / 2)
   * ((Real f)² * (Real m)² + (Real N)² * ((Real k)² + (Real l)²)) ** (1 / 2))%py
  = Real ((k ^ 2 + l ^ 2 + m ^ 2) * sqrt (k ^ 2 + l ^ 2 + m ^ 2)
          * sqrt (f ^ 2 * m ^ 2 + N ^ 2 * (k ^ 2 + l ^ 2)))
  /\ ((k ^ 2 + l ^ 2 + m ^ 2) * sqrt (k ^ 2 + l ^ 2 + m ^ 2)
        * sqrt (f ^ 2 * m ^ 2 + N ^ 2 * (k ^ 2 + l ^ 2)) <> 0
      <-> f ^ 2 * m ^ 2 + N ^ 2 * (k ^ 2 + l ^ 2) <> 0).
Proof.
  intros Hkl.
  assert (HK : 0 < k ^ 2 + l ^ 2 + m ^ 2)
    by (apply sum_sq_pos; intros (Hk & Hl & _); now apply Hkl).
  pose proof (dispersion_numerator_nonneg N k m l f) as HD.
  pose proof (sqrt_lt_R0 _ HK) as Hs.
  split.
  - r_eval. rewrite r_powf_pos, Rpower_three_halves by assumption.
    destruct HD as [HD | HD].
    + rewrite r_powf_pos, Rpower_half by assumption. reflexivity.
    + rewrite <- HD, r_powf_zero, sqrt_0 by lra. reflexivity.
  - split.
    + intros Hden HD0. apply Hden. rewrite HD0, sqrt_0. ring.
    + intros HD0. assert (HDpos : 0 < f ^ 2 * m ^ 2 + N ^ 2 * (k ^ 2 + l ^ 2)) by lra.
      pose proof (sqrt_lt_R0 _ HDpos).
      repeat apply Rmult_integral_contrapositive_currified; lra.
Qed.

Lemma cgz_real (k m N l f : R) :
  ~ (k = 0 /\ l = 0) ->
  f ^ 2 * m ^ 2 + N ^ 2 * (k ^ 2 + l ^ 2) <> 0 ->
  cgz (Real k) (Real m) (Real N) (Real l) (Real f)
  = Real (- m * (N ^ 2 - f ^ 2) * (k ^ 2 + l ^ 2)
          / ((k ^ 2 + l ^ 2 + m ^ 2) * sqrt (k ^ 2 + l ^ 2 + m ^ 2)
             * sqrt (f ^ 2 * m ^ 2 + N ^ 2 * (k ^ 2 + l ^ 2)))).
Proof.
  intros Hkl HD.
  assert (HK : 0 < k ^ 2 + l ^ 2 + m ^ 2)
    by (apply sum_sq_pos; intros (Hk & Hl & _); now apply Hkl).
  assert (HDpos : 0 < f ^ 2 * m ^ 2 + N ^ 2 * (k ^ 2 + l ^ 2))
    by (pose proof (dispersion_numerator_nonneg N k m l f); lra).
  unfold cgz. r_eval.
  rewrite !r_powf_pos by assumption. r_eval.
  rewrite Rpower_three_halves, Rpower_half by assumption.
  apply r_div_real.
  pose proof (sqrt_lt_R0 _ HK). pose proof (sqrt_lt_R0 _ HDpos).
  repeat apply Rmult_integral_contrapositive_currified; lra.
Qed.

Lemma sin_phip_upward (k m l : R) :
  0 <= m -> ~ (k = 0 /\ l = 0 /\ m = 0) ->
  sqrt (m ^ 2 / (k ^ 2 + l ^ 2 + m ^ 2)) = m / sqrt (k ^ 2 + l ^ 2 + m ^ 2).
Proof.
  intros Hm Hne. pose proof (sum_sq_pos k l m Hne) as HK.
  rewrite sqrt_div_alt by assumption. f_equal.
  replace (m ^ 2) with (m * m) by ring. now apply sqrt_square.
Qed.

Lemma cos_phip_square (k m l : R) :
  ~ (k = 0 /\ l = 0 /\ m = 0) ->
  cos (asin (sqrt (m ^ 2 / (k ^ 2 + l ^ 2 + m ^ 2))))
  * cos (asin (sqrt (m ^ 2 / (k ^ 2 + l ^ 2 + m ^ 2))))
  = (k ^ 2 + l ^ 2) / (k ^ 2 + l ^ 2 + m ^ 2).
Proof.
  intros Hne. pose proof (sum_sq_pos k l m Hne) as HK.
  pose proof (vertical_fraction_bounds k m l Hne) as [Hq0 Hq1].
  pose proof (sin_phip_bounds k m l Hne) as [Hs0 Hs1].
  pose proof (cos2 (asin (sqrt (m ^ 2 / (k ^ 2 + l ^ 2 + m ^ 2))))) as Hc.
  rewrite sin_asin in Hc by lra. unfold Rsqr in Hc.
  rewrite Hc, sqrt_sqrt by assumption. field. lra.
Qed.

(** C9: for real k, l, m, N, f with m >= 0, (k, l) not both zero and the
    denominator of [cgz] nonzero (by [cgz_denominator], that is
    f^2 m^2 + N^2 (k^2 + l^2) <> 0), the third component of [cgvec] is the
    real number that [cgz] returns. *)
Theorem cgvec_vertical_is_cgz (k l m N f : R) :
  0 <= m ->
  ~ (k = 0 /\ l = 0) ->
  f ^ 2 * m ^ 2 + N ^ 2 * (k ^ 2 + l ^ 2) <> 0 ->
  nth_error (cgvec (Real k) (Real l) (Real m) (Real N) (Real f)) 2
  = Some (cgz (Real k) (Real m) (Real N) (Real l) (Real f))
  /\ exists c : R, cgz (Real k) (Real m) (Real N) (Real l) (Real f) = Real c.
Proof.
  intros Hm Hkl HD.
  assert (Hne : ~ (k = 0 /\ l = 0 /\ m = 0)) by (intros (Hk & Hl & _); now apply Hkl).
  pose proof (sum_sq_pos k l m Hne) as HK.
  assert (HDpos : 0 < f ^ 2 * m ^ 2 + N ^ 2 * (k ^ 2 + l ^ 2))
    by (pose proof (dispersion_numerator_nonneg N k m l f); lra).
  pose proof (sqrt_lt_R0 _ HK) as Hs. pose proof (sqrt_lt_R0 _ HDpos) as Hd.
  pose proof (sqrt_sqrt (k ^ 2 + l ^ 2 + m ^ 2) ltac:(lra)) as Hss.
  rewrite (cgz_real k m N l f Hkl HD).
  split; [|eexists; reflexivity].
  unfold cgvec. cbv zeta. cbn [map nth_error].
  rewrite (omega_real N k m l f Hne), (phip_real k m l Hne).
  unfold np_cos, np_sin. r_eval. rewrite r_sqrt_real by lra. r_eval.
  rewrite (sin_phip_upward k m l Hm Hne).
  rewrite (sqrt_div_alt (f ^ 2 * m ^ 2 + N ^ 2 * (k ^ 2 + l ^ 2))) by assumption.
  pose proof (cos_phip_square k m l Hne) as Hcc.
  pose proof (sin_phip_bounds k m l Hne) as Hsb.
  rewrite (sin_phip_upward k m l Hm Hne) in Hcc, Hsb.
  rewrite sin_asin by lra.
  set (c := cos (asin (m / sqrt (k ^ 2 + l ^ 2 + m ^ 2)))) in *.
  set (s := sqrt (k ^ 2 + l ^ 2 + m ^ 2)) in *.
  set (d := sqrt (f ^ 2 * m ^ 2 + N ^ 2 * (k ^ 2 + l ^ 2))) in *.
  rewrite r_div_real by (unfold Rdiv; repeat apply Rmult_integral_contrapositive_currified;
                         try apply Rinv_neq_0_compat; lra).
  r_eval. do 2 f_equal.
  replace (c * (m / s) * (N ^ 2 - f ^ 2) / (d / s * s) * - c)
    with (- (c * c) * m * (N ^ 2 - f ^ 2) / (s * d)) by (field; lra).
  rewrite Hcc, <- Hss. field. lra.
Qed.

Lemma cgvec_vertical_is_cgz_witness :
  (0 <= 4 /\ ~ (3 = 0 /\ 0 = 0) /\ 1 ^ 2 * 4 ^ 2 + 2 ^ 2 * (3 ^ 2 + 0 ^ 2) <> 0) /\
  nth_error (cgvec (Real 3) (Real 0) (Real 4) (Real 2) (Real 1)) 2
  = Some (cgz (Real 3) (Real 4) (Real 2) (Real 0) (Real 1)).
Proof.
  assert (Hm : 0 <= 4) by lra.
  assert (Hkl : ~ (3 = 0 /\ 0 = 0)) by (intros [H3 _]; lra).
  assert (HD : 1 ^ 2 * 4 ^ 2 + 2 ^ 2 * (3 ^ 2 + 0 ^ 2) <> 0) by lra.
  split; [repeat split; assumption|].
  exact (proj1 (cgvec_vertical_is_cgz 3 0 4 2 1 Hm Hkl HD)).
Defined.

(** ** Bounded fields *)

(** A finite amplitude carried by the phase gives a real field value no
    larger than the modulus of the amplitude. *)
Lemma carried_amplitude_bound (a1 a2 theta : R) :
  exists p : R,
    np_real (Cplx a1 a2 * np_exp (Cplx 0 theta))%C = Real p
    /\ Rabs p <= sqrt (a1 ^ 2 + a2 ^ 2).
Proof.
  rewrite np_exp_imaginary. r_eval. eexists. split; [reflexivity|].
  apply rotation_bound.
Qed.

(** The evaluators share one shape, so the bound applies to each of them
    whenever its amplitude is finite; [u] is shown. *)
Lemma u_bounded_by_amplitude (x y z t k l m om f U V W phase_0 : R)
    (phi_0 : cval) (a1 a2 : R) :
  U_0 phi_0 (Real k) (Real l) (Real om) (Real f) = Cplx a1 a2 ->
  exists p : R,
    u (Real x) (Real y) (Real z) (Real t) phi_0 (Real k) (Real l) (Real m)
      (Real om) (Real f) (Real U) (Real V) (Real W) (Real phase_0) = Real p
    /\ Rabs p <= sqrt (a1 ^ 2 + a2 ^ 2).
Proof.
  intros HA. unfold u. cbv zeta. rewrite HA, wave_phase_real.
  apply carried_amplitude_bound.
Qed.

(** A finite amplitude evaluated at a real phase angle: the value is real
    and bounded by the modulus of the amplitude. *)
Lemma evaluated_field_bound (A : cval) (theta a1 a2 : R) :
  A = Cplx a1 a2 ->
  exists p : R,
    np_real (A * np_exp (Cplx 0 theta))%C = Real p
    /\ np_abs A = Real (sqrt (a1 ^ 2 + a2 ^ 2))
    /\ Rabs p <= sqrt (a1 ^ 2 + a2 ^ 2).
Proof.
  intros ->. destruct (carried_amplitude_bound a1 a2 theta) as (p & Hp & Hle).
  exists p. repeat split; assumption.
Qed.

(** C10: for real x, y, z, t, k, l, m, om, U, V, W, phase_0 the value of
    [wave_phase] has real part zero, its exponential has modulus 1, every
    finite amplitude carried by it yields a real value bounded by the
    modulus of the amplitude, in particular |phi| <= |phi_0| for every
    complex phi_0, and each of the evaluators [u], [v], [w], [b], [rho],
    [eta] is bounded by the modulus of its amplitude ([U_0], [V_0], [W_0],
    [B_0], [RHO_0], [ETA_0]) whenever that amplitude is finite. *)
Theorem wave_phase_imaginary_and_bounded
    (x y z t k l m om U V W phase_0 re im f N g rho_0 : R) :
  let phase :=
    wave_phase (Real x) (Real y) (Real z) (Real t) (Real k) (Real l) (Real m)
      (Real om) (Real U) (Real V) (Real W) (Real phase_0) in
  np_real phase = Real 0
  /\ np_abs (np_exp phase) = Real 1
  /\ (forall a1 a2 : R,
        exists p : R,
          np_real (Cplx a1 a2 * np_exp phase)%C = Real p
          /\ np_abs (Cplx a1 a2) = Real (sqrt (a1 ^ 2 + a2 ^ 2))
          /\ Rabs p <= sqrt (a1 ^ 2 + a2 ^ 2))
  /\ (exists p : R,
       phi (Real x) (Real y) (Real z) (Real t) (Cplx re im) (Real k) (Real l)
         (Real m) (Real om) (Real U) (Real V) (Real W) (Real phase_0) = Real p
       /\ np_abs (Cplx re im) = Real (sqrt (re ^ 2 + im ^ 2))
       /\ Rabs p <= sqrt (re ^ 2 + im ^ 2))
  /\ (forall a1 a2 : R,
        U_0 (Cplx re im) (Real k) (Real l) (Real om) (Real f) = Cplx a1 a2 ->
        exists p : R,
          u (Real x) (Real y) (Real z) (Real t) (Cplx re im) (Real k) (Real l)
            (Real m) (Real om) (Real f) (Real U) (Real V) (Real W) (Real phase_0) = Real p
          /\ np_abs (U_0 (Cplx re im) (Real k) (Real l) (Real om) (Real f))
             = Real (sqrt (a1 ^ 2 + a2 ^ 2))
          /\ Rabs p <= sqrt (a1 ^ 2 + a2 ^ 2))
  /\ (forall a1 a2 : R,
        V_0 (Cplx re im) (Real k) (Real l) (Real om) (Real f) = Cplx a1 a2 ->
        exists p : R,
          v (Real x) (Real y) (Real z) (Real t) (Cplx re im) (Real k) (Real l)
            (Real m) (Real om) (Real f) (Real U) (Real V) (Real W) (Real phase_0) = Real p
          /\ np_abs (V_0 (Cplx re im) (Real k) (Real l) (Real om) (Real f))
             = Real (sqrt (a1 ^ 2 + a2 ^ 2))
          /\ Rabs p <= sqrt (a1 ^ 2 + a2 ^ 2))
  /\ (forall a1 a2 : R,
        W_0 (Cplx re im) (Real m) (Real om) (Real N) = Cplx a1 a2 ->
        exists p : R,
          w (Real x) (Real y) (Real z) (Real t) (Cplx re im) (Real k) (Real l)
            (Real m) (Real om) (Real N) (Real U) (Real V) (Real W) (Real phase_0) = Real p
          /\ np_abs (W_0 (Cplx re im) (Real m) (Real om) (Real N))
             = Real (sqrt (a1 ^ 2 + a2 ^ 2))
          /\ Rabs p <= sqrt (a1 ^ 2 + a2 ^ 2))
  /\ (forall a1 a2 : R,
        B_0 (Cplx re im) (Real m) (Real om) (Real N) = Cplx a1 a2 ->
        exists p : R,
          b (Real x) (Real y) (Real z) (Real t) (Cplx re im) (Real k) (Real l)
            (Real m) (Real om) (Real N) (Real U) (Real V) (Real W) (Real phase_0) = Real p
          /\ np_abs (B_0 (Cplx re im) (Real m) (Real om) (Real N))
             = Real (sqrt (a1 ^ 2 + a2 ^ 2))
          /\ Rabs p <= sqrt (a1 ^ 2 + a2 ^ 2))
  /\ (forall a1 a2 : R,
        RHO_0 (Cplx re im) (Real m) (Real om) (Real N) (Real g) (Real rho_0) = Cplx a1 a2 ->
        exists p : R,
          rho (Real x) (Real y) (Real z) (Real t) (Cplx re im) (Real k) (Real l)
            (Real m) (Real om) (Real N) (Real U) (Real V) (Real W) (Real phase_0)
            (Real g) (Real rho_0) = Real p
          /\ np_abs (RHO_0 (Cplx re im) (Real m) (Real om) (Real N) (Real g) (Real rho_0))
             = Real (sqrt (a1 ^ 2 + a2 ^ 2))
          /\ Rabs p <= sqrt (a1 ^ 2 + a2 ^ 2))
  /\ (forall a1 a2 : R,
        ETA_0 (Cplx re im) (Real m) (Real om) (Real N) = Cplx a1 a2 ->
        exists p : R,
          eta (Real x) (Real y) (Real z) (Real t) (Cplx re im) (Real k) (Real l)
            (Real m) (Real om) (Real N) (Real U) (Real V) (Real W) (Real phase_0) = Real p
          /\ np_abs (ETA_0 (Cplx re im) (Real m) (Real om) (Real N))
             = Real (sqrt (a1 ^ 2 + a2 ^ 2))
          /\ Rabs p <= sqrt (a1 ^ 2 + a2 ^ 2)).
Proof.
  intros phase. unfold phi, u, v, w, b, rho, eta. cbv zeta. fold phase. subst phase.
  rewrite wave_phase_real.
  set (theta := k * x + l * y + m * z - (om + k * U + l * V + m * W) * t + phase_0).
  split; [reflexivity|]. split.
  { rewrite np_exp_imaginary. cbn [np_abs]. f_equal.
    rewrite <- sqrt_1. f_equal.
    pose proof (sin2_cos2 theta) as H1. unfold Rsqr in H1. lra. }
  split.
  { intros a1 a2. now apply evaluated_field_bound. }
  split.
  { now apply evaluated_field_bound. }
  repeat split; intros a1 a2 HA; now apply evaluated_field_bound.
Qed.

Lemma wave_phase_imaginary_and_bounded_witness :
  U_0 (Cplx 1 0) (Real 1) (Real 0) (Real 2) (Real 0) = Cplx (1 / 2) 0 /\
  exists p : R,
    u (Real 0) (Real 0) (Real 0) (Real 0) (Cplx 1 0) (Real 1) (Real 0)
      (Real 1) (Real 2) (Real 0) (Real 0) (Real 0) (Real 0) (Real 0) = Real p
    /\ np_abs (U_0 (Cplx 1 0) (Real 1) (Real 0) (Real 2) (Real 0))
       = Real (sqrt ((1 / 2) ^ 2 + 0 ^ 2))
    /\ Rabs p <= sqrt ((1 / 2) ^ 2 + 0 ^ 2).
Proof.
  assert (HA : U_0 (Cplx 1 0) (Real 1) (Real 0) (Real 2) (Real 0) = Cplx (1 / 2) 0).
  { unfold U_0. r_eval. rewrite c_div_real by lra. r_eval. apply Cplx_eq; field. }
  split; [exact HA|].
  destruct (wave_phase_imaginary_and_bounded 0 0 0 0 1 0 1 2 0 0 0 0 1 0 0 3 1 1)
    as (_ & _ & _ & _ & Hu & _).
  exact (Hu (1 / 2) 0 HA).
Defined.

(** ** The singular input on Python and NumPy scalars *)

Section SingularInput.
Import Floats.
Import Py.
Local Open Scope float_scope.

(** C8 (as stated): on the built-in numbers 1, 0, 0, 0, 0 the quotient
    0/0 raises [ZeroDivisionError] before [np.sqrt] is reached; nothing is
    returned. *)
Lemma omega_singular_builtin_raises :
  omega (int 1) (int 0) (int 0) (int 0) (int 0) = Raise ZeroDivisionError
  /\ ~ (exists v : pyval, omega (int 1) (int 0) (int 0) (int 0) (int 0) = Ret v).
Proof.
  assert (E : omega (int 1) (int 0) (int 0) (int 0) (int 0) = Raise ZeroDivisionError)
    by (vm_compute; reflexivity).
  split; [exact E|]. rewrite E. intros [v Hv]. discriminate Hv.
Qed.

(** C8 (amended): on NumPy float64 values 1, 0, 0, 0, 0 (the documented
    ndarray inputs), and already when only N is a NumPy value and the
    defaults l = 0., f = 0. are used, [omega] returns NaN and raises
    nothing; on built-in floats the division raises [ZeroDivisionError]. *)
Theorem omega_singular_numpy_nan :
  omega (float64 1) (float64 0) (float64 0) (float64 0) (float64 0)
  = Ret (NpFloat64 nan)
  /\ omega (float64 1) (int 0) (int 0) (float_ 0) (float_ 0) = Ret (NpFloat64 nan)
  /\ omega (float_ 1) (float_ 0) (float_ 0) (float_ 0) (float_ 0)
     = Raise ZeroDivisionError.
Proof.
  repeat split; vm_compute; reflexivity.
Qed.

(** The scenario N = 0.01, k = 0.001, m = -0.002 in binary64: [omega] and
    the non-rotating formula evaluated on its own give the same float. *)
Lemma omega_scenario_binary64 :
  let N := 0x1.47ae147ae147bp-7 in
  let k := 0x1.0624dd2f1a9fcp-10 in
  let m := -0x1.0624dd2f1a9fcp-9 in
  omega (float64 N) (float64 k) (float64 m) (float_ 0) (float_ 0)
  = Ret (NpFloat64 (sqrt (N * N * (k * k) / (k * k + m * m)))).
Proof.
  vm_compute. reflexivity.
Qed.

End SingularInput.


(** * Further properties of the module *)

(** ** The frequency band of the dispersion relation *)

Lemma between_weighted (a N f k l m : R) :
  0 <= a -> a * a <= N ^ 2 -> a * a <= f ^ 2 ->
  a * a * (k ^ 2 + l ^ 2 + m ^ 2) <= f ^ 2 * m ^ 2 + N ^ 2 * (k ^ 2 + l ^ 2).
Proof.
  intros Ha HN Hf.
  assert (Hk := pow2_ge_0 k). assert (Hl := pow2_ge_0 l). assert (Hm := pow2_ge_0 m).
  assert (H1 : 0 <= (f ^ 2 - a * a) * m ^ 2) by (apply Rmult_le_pos; lra).
  assert (H2 : 0 <= (N ^ 2 - a * a) * (k ^ 2 + l ^ 2)) by (apply Rmult_le_pos; lra).
  lra.
Qed.

Lemma above_weighted (c N f k l m : R) :
  N ^ 2 <= c * c -> f ^ 2 <= c * c ->
  f ^ 2 * m ^ 2 + N ^ 2 * (k ^ 2 + l ^ 2) <= c * c * (k ^ 2 + l ^ 2 + m ^ 2).
Proof.
  intros HN Hf.
  assert (Hk := pow2_ge_0 k). assert (Hl := pow2_ge_0 l). assert (Hm := pow2_ge_0 m).
  assert (H1 : 0 <= (c * c - f ^ 2) * m ^ 2) by (apply Rmult_le_pos; lra).
  assert (H2 : 0 <= (c * c - N ^ 2) * (k ^ 2 + l ^ 2)) by (apply Rmult_le_pos; lra).
  lra.
Qed.

Lemma abs_square_le (a x : R) : 0 <= a -> a <= Rabs x -> a * a <= x ^ 2.
Proof.
  intros Ha Hle. rewrite <- pow2_abs. pose proof (Rabs_pos x). nra.
Qed.

Lemma abs_square_ge (c x : R) : Rabs x <= c -> x ^ 2 <= c * c.
Proof.
  intros Hle. rewrite <- pow2_abs. pose proof (Rabs_pos x). nra.
Qed.

Lemma le_quotient (a D K : R) : 0 < K -> a * K <= D -> a <= D / K.
Proof.
  intros HK H. apply (Rmult_le_reg_r K); [assumption|].
  unfold Rdiv. rewrite Rmult_assoc, Rinv_l by lra. lra.
Qed.

Lemma quotient_le (c D K : R) : 0 < K -> D <= c * K -> D / K <= c.
Proof.
  intros HK H. apply (Rmult_le_reg_r K); [assumption|].
  unfold Rdiv. rewrite Rmult_assoc, Rinv_l by lra. lra.
Qed.

(** X1: away from the origin of wavenumber space the frequency lies
    between the smaller and the larger of |N| and |f|. *)
Theorem omega_between_f_and_N (N k m l f : R) :
  ~ (k = 0 /\ l = 0 /\ m = 0) ->
  exists w : R,
    omega (Real N) (Real k) (Real m) (Real l) (Real f) = Real w
    /\ Rmin (Rabs N) (Rabs f) <= w <= Rmax (Rabs N) (Rabs f).
Proof.
  intros Hne. pose proof (sum_sq_pos k l m Hne) as HK.
  eexists. split; [now apply omega_real|].
  set (a := Rmin (Rabs N) (Rabs f)). set (c := Rmax (Rabs N) (Rabs f)).
  assert (Ha : 0 <= a) by (apply Rmin_glb; apply Rabs_pos).
  assert (Hc : 0 <= c) by (apply Rle_trans with (Rabs N); [apply Rabs_pos | apply Rbasic_fun.Rmax_l]).
  split.
  - rewrite <- (sqrt_square a Ha). apply sqrt_le_1_alt, le_quotient; [assumption|].
    apply between_weighted; [assumption | |]; apply abs_square_le; try assumption.
    + apply Rbasic_fun.Rmin_l.
    + apply Rbasic_fun.Rmin_r.
  - rewrite <- (sqrt_square c Hc). apply sqrt_le_1_alt, quotient_le; [assumption|].
    apply above_weighted; apply abs_square_ge.
    + apply Rbasic_fun.Rmax_l.
    + apply Rbasic_fun.Rmax_r.
Qed.

Lemma omega_between_f_and_N_witness :
  ~ (3 = 0 /\ 0 = 0 /\ 4 = 0) /\
  exists w : R,
    omega (Real 2) (Real 3) (Real 4) (Real 0) (Real 1) = Real w
    /\ Rmin (Rabs 2) (Rabs 1) <= w <= Rmax (Rabs 2) (Rabs 1).
Proof.
  assert (Hne : ~ (3 = 0 /\ 0 = 0 /\ 4 = 0)) by (intros [H3 _]; lra).
  split; [exact Hne | exact (omega_between_f_and_N 2 3 4 0 1 Hne)].
Defined.

(** X2: the frequency depends on the direction of the wavevector only:
    scaling (k, l, m) by a nonzero factor leaves it unchanged. *)
Theorem omega_scale_invariant (c N k m l f : R) :
  c <> 0 ->
  ~ (k = 0 /\ l = 0 /\ m = 0) ->
  omega (Real N) (Real (c * k)) (Real (c * m)) (Real (c * l)) (Real f)
  = omega (Real N) (Real k) (Real m) (Real l) (Real f).
Proof.
  intros Hc Hne. pose proof (sum_sq_pos k l m Hne) as HK.
  assert (Hne' : ~ (c * k = 0 /\ c * l = 0 /\ c * m = 0)).
  { intros (Hk & Hl & Hm). apply Hne.
    repeat split; eapply Rmult_eq_reg_l; try exact Hc; rewrite Rmult_0_r; assumption. }
  rewrite (omega_real _ _ _ _ _ Hne'), (omega_real _ _ _ _ _ Hne).
  pose proof (sum_sq_pos _ _ _ Hne') as HK'.
  do 2 f_equal. field. split; lra.
Qed.

Lemma omega_scale_invariant_witness :
  (-2 <> 0 /\ ~ (3 = 0 /\ 0 = 0 /\ 4 = 0)) /\
  omega (Real 2) (Real (-2 * 3)) (Real (-2 * 4)) (Real (-2 * 0)) (Real 1)
  = omega (Real 2) (Real 3) (Real 4) (Real 0) (Real 1).
Proof.
  assert (Hc : -2 <> 0) by lra.
  assert (Hne : ~ (3 = 0 /\ 0 = 0 /\ 4 = 0)) by (intros [H3 _]; lra).
  split; [split; assumption | exact (omega_scale_invariant (-2) 2 3 4 0 1 Hc Hne)].
Defined.

(** The signs of the five arguments are irrelevant, also at the singular
    point. *)
Lemma omega_even (N k m l f : R) :
  omega (Real (Rabs N)) (Real (Rabs k)) (Real (Rabs m)) (Real (Rabs l)) (Real (Rabs f))
  = omega (Real N) (Real k) (Real m) (Real l) (Real f).
Proof.
  unfold omega. r_eval. now rewrite !pow2_abs.
Qed.

(** X3: the two ends of the band: a horizontal wavevector (m = 0) gives
    |N|, a vertical one (k = l = 0) gives |f|. *)
Theorem omega_limits (N k m l f : R) :
  (~ (k = 0 /\ l = 0) ->
   omega (Real N) (Real k) (Real 0) (Real l) (Real f) = Real (Rabs N))
  /\ (m <> 0 ->
      omega (Real N) (Real 0) (Real m) (Real 0) (Real f) = Real (Rabs f)).
Proof.
  split.
  - intros Hkl.
    assert (Hne : ~ (k = 0 /\ l = 0 /\ 0 = 0)) by (intros (Hk & Hl & _); now apply Hkl).
    pose proof (sum_sq_pos k l 0 Hne) as HK.
    rewrite (omega_real _ _ _ _ _ Hne). f_equal.
    apply sqrt_unique; [apply Rabs_pos|].
    rewrite <- Rabs_mult, Rabs_right by nra. field. lra.
  - intros Hm.
    assert (Hne : ~ (0 = 0 /\ 0 = 0 /\ m = 0)) by (intros (_ & _ & H0); now apply Hm).
    pose proof (sum_sq_pos 0 0 m Hne) as HK.
    rewrite (omega_real _ _ _ _ _ Hne). f_equal.
    apply sqrt_unique; [apply Rabs_pos|].
    rewrite <- Rabs_mult, Rabs_right by nra. field. lra.
Qed.

Lemma omega_limits_witness :
  (~ (3 = 0 /\ 4 = 0) /\ 5 <> 0) /\
  omega (Real (-2)) (Real 3) (Real 0) (Real 4) (Real 1) = Real (Rabs (-2))
  /\ omega (Real 2) (Real 0) (Real 5) (Real 0) (Real (-1)) = Real (Rabs (-1)).
Proof.
  assert (Hkl : ~ (3 = 0 /\ 4 = 0)) by (intros [H3 _]; lra).
  assert (Hm : 5 <> 0) by lra.
  split; [split; assumption|]. split.
  - exact (proj1 (omega_limits (-2) 3 5 4 1) Hkl).
  - exact (proj2 (omega_limits 2 3 5 4 (-1)) Hm).
Defined.

(** X4: the dispersion relation in terms of the polar angle of the
    wavevector: omega^2 = N^2 cos^2(phip) + f^2 sin^2(phip). *)
Theorem omega_from_polar_angle (N k m l f : R) :
  ~ (k = 0 /\ l = 0 /\ m = 0) ->
  exists w p : R,
    omega (Real N) (Real k) (Real m) (Real l) (Real f) = Real w
    /\ phip (Real k) (Real m) (Real l) = Real p
    /\ w ^ 2 = N ^ 2 * cos p ^ 2 + f ^ 2 * sin p ^ 2.
Proof.
  intros Hne. pose proof (sum_sq_pos k l m Hne) as HK.
  pose proof (vertical_fraction_bounds k m l Hne) as [Hq0 Hq1].
  pose proof (sin_phip_bounds k m l Hne) as [Hs0 Hs1].
  do 2 eexists. split; [now apply omega_real|]. split; [now apply phip_real|].
  pose proof (cos_phip_square k m l Hne) as Hcc.
  rewrite sin_asin by lra.
  replace (cos (asin (sqrt (m ^ 2 / (k ^ 2 + l ^ 2 + m ^ 2)))) ^ 2)
    with ((k ^ 2 + l ^ 2) / (k ^ 2 + l ^ 2 + m ^ 2)) by (rewrite <- Hcc; ring).
  replace (sqrt (m ^ 2 / (k ^ 2 + l ^ 2 + m ^ 2)) ^ 2)
    with (m ^ 2 / (k ^ 2 + l ^ 2 + m ^ 2))
    by (rewrite <- (sqrt_sqrt (m ^ 2 / (k ^ 2 + l ^ 2 + m ^ 2))) at 1 by assumption; ring).
  replace (sqrt ((f ^ 2 * m ^ 2 + N ^ 2 * (k ^ 2 + l ^ 2)) / (k ^ 2 + l ^ 2 + m ^ 2)) ^ 2)
    with ((f ^ 2 * m ^ 2 + N ^ 2 * (k ^ 2 + l ^ 2)) / (k ^ 2 + l ^ 2 + m ^ 2)).
  - field. lra.
  - rewrite <- (sqrt_sqrt ((f ^ 2 * m ^ 2 + N ^ 2 * (k ^ 2 + l ^ 2)) / (k ^ 2 + l ^ 2 + m ^ 2))) at 1.
    + ring.
    + apply quotient_nonneg; [apply dispersion_numerator_nonneg | assumption].
Qed.

Lemma omega_from_polar_angle_witness :
  ~ (3 = 0 /\ 0 = 0 /\ 4 = 0) /\
  exists w p : R,
    omega (Real 2) (Real 3) (Real 4) (Real 0) (Real 1) = Real w
    /\ phip (Real 3) (Real 4) (Real 0) = Real p
    /\ w ^ 2 = 2 ^ 2 * cos p ^ 2 + 1 ^ 2 * sin p ^ 2.
Proof.
  assert (Hne : ~ (3 = 0 /\ 0 = 0 /\ 4 = 0)) by (intros [H3 _]; lra).
  split; [exact Hne | exact (omega_from_polar_angle 2 3 4 0 1 Hne)].
Defined.

(** ** The dispersion relation on Python and NumPy scalars *)

Section ScalarKinds.
Import Floats.
Import Py.

(** The quotient under the square root on built-in ints: the two integers
    are exact and their quotient is rounded once to binary64. *)
Lemma omega_int_outcome (N k m l f : Z) :
  (k ^ 2 + l ^ 2 + m ^ 2 <> 0)%Z ->
  omega (int N) (int k) (int m) (int l) (int f)
  = (let q := SF2Prim (SFdiv prec emax
                         (spec_of_Z (f ^ 2 * m ^ 2 + N ^ 2 * (k ^ 2 + l ^ 2)))
                         (spec_of_Z (k ^ 2 + l ^ 2 + m ^ 2))) in
     if is_infinity q then Raise OverflowError else Ret (NpFloat64 (sqrt q))).
Proof.
  intros Hne. unfold omega, int.
  cbn [py_add py_mul py_truediv py_sq np_sqrt pyres_PyNum on1 on2 bind
       val_sq val_add val_mul val_truediv].
  unfold int_truediv.
  destruct (Z.eqb_spec (k ^ 2 + l ^ 2 + m ^ 2) 0) as [E | _]; [contradiction|].
  cbv zeta. destruct (is_infinity _); reflexivity.
Qed.

(** X5: on built-in ints the outcome is decided as follows.  If
    k^2 + l^2 + m^2 = 0 the division raises [ZeroDivisionError], whatever
    N and f are.  Otherwise, with q the quotient of the exact integers
    f^2 m^2 + N^2 (k^2 + l^2) and k^2 + l^2 + m^2 rounded once to binary64,
    [omega] raises [OverflowError] when q is infinite and returns the
    float64 sqrt(q) when it is not. *)
Theorem omega_on_builtin_ints (N k m l f : Z) :
  ((k ^ 2 + l ^ 2 + m ^ 2 = 0)%Z ->
   omega (int N) (int k) (int m) (int l) (int f) = Raise ZeroDivisionError)
  /\ ((k ^ 2 + l ^ 2 + m ^ 2 <> 0)%Z ->
      let q := SF2Prim (SFdiv prec emax
                          (spec_of_Z (f ^ 2 * m ^ 2 + N ^ 2 * (k ^ 2 + l ^ 2)))
                          (spec_of_Z (k ^ 2 + l ^ 2 + m ^ 2))) in
      (is_infinity q = true ->
       omega (int N) (int k) (int m) (int l) (int f) = Raise OverflowError)
      /\ (is_infinity q = false ->
          omega (int N) (int k) (int m) (int l) (int f) = Ret (NpFloat64 (sqrt q)))).
Proof.
  split.
  - intros H0. unfold omega, int.
    cbn [py_add py_mul py_truediv py_sq np_sqrt pyres_PyNum on1 on2 bind
         val_sq val_add val_mul val_truediv].
    unfold int_truediv.
    destruct (Z.eqb_spec (k ^ 2 + l ^ 2 + m ^ 2) 0) as [_ | E]; [reflexivity | contradiction].
  - intros Hne q. rewrite (omega_int_outcome N k m l f Hne). fold q.
    split; intros Hq; cbv zeta; fold q; rewrite Hq; reflexivity.
Qed.

(** The three outcomes occur: a zero wavevector raises, (N, k, m, l, f) =
    (2, 3, 4, 0, 1) returns sqrt(52/25) in binary64, and N = 10^200 with
    k = 1, m = l = f = 0 overflows. *)
Lemma omega_on_builtin_ints_witness :
  ((0 ^ 2 + 0 ^ 2 + 0 ^ 2 = 0)%Z /\ (3 ^ 2 + 0 ^ 2 + 4 ^ 2 <> 0)%Z
   /\ (1 ^ 2 + 0 ^ 2 + 0 ^ 2 <> 0)%Z) /\
  omega (int 7) (int 0) (int 0) (int 0) (int 5) = Raise ZeroDivisionError
  /\ omega (int 2) (int 3) (int 4) (int 0) (int 1)
     = Ret (NpFloat64 (sqrt (52 / 25))%float)
  /\ omega (int (10 ^ 200)) (int 1) (int 0) (int 0) (int 0) = Raise OverflowError.
Proof.
  assert (H0 : (0 ^ 2 + 0 ^ 2 + 0 ^ 2 = 0)%Z) by reflexivity.
  assert (Hne : (3 ^ 2 + 0 ^ 2 + 4 ^ 2 <> 0)%Z) by (vm_compute; discriminate).
  assert (Hne1 : (1 ^ 2 + 0 ^ 2 + 0 ^ 2 <> 0)%Z) by (vm_compute; discriminate).
  split; [repeat split; assumption|]. split; [|split].
  - exact (proj1 (omega_on_builtin_ints 7 0 0 0 5) H0).
  - exact (proj2 (proj2 (omega_on_builtin_ints 2 3 4 0 1) Hne) eq_refl).
  - exact (proj1 (proj2 (omega_on_builtin_ints (10 ^ 200) 1 0 0 0) Hne1) eq_refl).
Defined.

(** On NumPy float64 values nothing is raised: every input, singular or
    not, yields a float64, possibly NaN or an infinity. *)
Lemma omega_numpy_never_raises (N k m l f : float) :
  omega (float64 N) (float64 k) (float64 m) (float64 l) (float64 f)
  = Ret (NpFloat64
           (sqrt ((f * f * (m * m) + N * N * (k * k + l * l))
                  / (k * k + l * l + m * m)))%float).
Proof.
  reflexivity.
Qed.

End ScalarKinds.

(** ** Amplitude ratios in components *)

Lemma sq_nonzero (d : R) : d <> 0 -> d ^ 2 + 0 ^ 2 <> 0.
Proof.
  intros Hd. replace (d ^ 2 + 0 ^ 2) with (d * d) by ring.
  now apply Rmult_integral_contrapositive_currified.
Qed.

Lemma c_div_by_real (x y d : R) :
  d <> 0 -> c_div (Cplx x y) (Cplx d 0) = Cplx (x / d) (y / d).
Proof.
  intros Hd. rewrite c_div_real by now apply sq_nonzero.
  apply Cplx_eq; field; assumption.
Qed.

Lemma c_div_by_zero (a : cval) (d : R) : d = 0 -> c_div a (Cplx d 0) = CNaN.
Proof.
  intros ->. destruct a as [x y|]; [apply c_div_zero | reflexivity].
Qed.

Lemma U_0_components (re im k l om f : R) :
  om ^ 2 - f ^ 2 <> 0 ->
  U_0 (Cplx re im) (Real k) (Real l) (Real om) (Real f)
  = Cplx ((k * om * re - l * f * im) / (om ^ 2 - f ^ 2))
         ((k * om * im + l * f * re) / (om ^ 2 - f ^ 2)).
Proof.
  intros Hd. unfold U_0. r_eval. rewrite c_div_by_real by assumption. r_eval.
  apply Cplx_eq; field; assumption.
Qed.

Lemma V_0_components (re im k l om f : R) :
  om ^ 2 - f ^ 2 <> 0 ->
  V_0 (Cplx re im) (Real k) (Real l) (Real om) (Real f)
  = Cplx ((l * om * re + k * f * im) / (om ^ 2 - f ^ 2))
         ((l * om * im - k * f * re) / (om ^ 2 - f ^ 2)).
Proof.
  intros Hd. unfold V_0. r_eval. rewrite c_div_by_real by assumption. r_eval.
  apply Cplx_eq; field; assumption.
Qed.

Lemma W_0_components (re im m om N : R) :
  N ^ 2 - om ^ 2 <> 0 ->
  W_0 (Cplx re im) (Real m) (Real om) (Real N)
  = Cplx (- om * m * re / (N ^ 2 - om ^ 2)) (- om * m * im / (N ^ 2 - om ^ 2)).
Proof.
  intros Hd. unfold W_0. r_eval. rewrite r_div_real by assumption. r_eval.
  apply Cplx_eq; field; assumption.
Qed.

Lemma B_0_components (re im m om N : R) :
  N ^ 2 - om ^ 2 <> 0 ->
  B_0 (Cplx re im) (Real m) (Real om) (Real N)
  = Cplx (- (m * N ^ 2 * im) / (N ^ 2 - om ^ 2)) (m * N ^ 2 * re / (N ^ 2 - om ^ 2)).
Proof.
  intros Hd. unfold B_0. r_eval. rewrite c_div_by_real by assumption. r_eval.
  apply Cplx_eq; field; assumption.
Qed.

Lemma ETA_0_components (re im m om N : R) :
  N ^ 2 - om ^ 2 <> 0 ->
  ETA_0 (Cplx re im) (Real m) (Real om) (Real N)
  = Cplx (- (m * im) / (N ^ 2 - om ^ 2)) (m * re / (N ^ 2 - om ^ 2)).
Proof.
  intros Hd. unfold ETA_0. r_eval. rewrite c_div_by_real by assumption.
  apply Cplx_eq; field; assumption.
Qed.

(** The value of a field with a finite amplitude at a real phase angle. *)
Lemma field_value (a1 a2 theta : R) :
  np_real (Cplx a1 a2 * np_exp (Cplx 0 theta))%C
  = Real (a1 * cos theta - a2 * sin theta).
Proof.
  rewrite np_exp_imaginary. reflexivity.
Qed.

(** What [omega] returns solves the dispersion relation. *)
Lemma omega_solves_dispersion (N k m l f om : R) :
  omega (Real N) (Real k) (Real m) (Real l) (Real f) = Real om ->
  om ^ 2 * (k ^ 2 + l ^ 2 + m ^ 2) = f ^ 2 * m ^ 2 + N ^ 2 * (k ^ 2 + l ^ 2).
Proof.
  intros Hom.
  destruct (Req_dec (k ^ 2 + l ^ 2 + m ^ 2) 0) as [Hz | Hnz].
  - destruct (sum_sq_zero k l m Hz) as (-> & -> & ->).
    rewrite omega_origin in Hom. discriminate.
  - assert (Hne : ~ (k = 0 /\ l = 0 /\ m = 0)).
    { intros (-> & -> & ->). apply Hnz. ring. }
    pose proof (sum_sq_pos k l m Hne) as HK.
    rewrite (omega_real N k m l f Hne) in Hom.
    assert (Hq : 0 <= (f ^ 2 * m ^ 2 + N ^ 2 * (k ^ 2 + l ^ 2)) / (k ^ 2 + l ^ 2 + m ^ 2))
      by (apply quotient_nonneg; [apply dispersion_numerator_nonneg | assumption]).
    remember ((f ^ 2 * m ^ 2 + N ^ 2 * (k ^ 2 + l ^ 2)) / (k ^ 2 + l ^ 2 + m ^ 2)) as q eqn:Eq.
    assert (Hsq : om ^ 2 = q).
    { injection Hom as <-. rewrite <- (sqrt_sqrt q Hq) at 2. ring. }
    rewrite Hsq, Eq. field. lra.
Qed.

(** The bracket that vanishes on the dispersion relation. *)
Lemma continuity_bracket (k l m om N f : R) :
  om ^ 2 - f ^ 2 <> 0 -> N ^ 2 - om ^ 2 <> 0 ->
  om ^ 2 * (k ^ 2 + l ^ 2 + m ^ 2) = f ^ 2 * m ^ 2 + N ^ 2 * (k ^ 2 + l ^ 2) ->
  (k ^ 2 + l ^ 2) / (om ^ 2 - f ^ 2) - m ^ 2 / (N ^ 2 - om ^ 2) = 0.
Proof.
  intros HA HB Hdisp.
  replace ((k ^ 2 + l ^ 2) / (om ^ 2 - f ^ 2) - m ^ 2 / (N ^ 2 - om ^ 2))
    with ((f ^ 2 * m ^ 2 + N ^ 2 * (k ^ 2 + l ^ 2) - om ^ 2 * (k ^ 2 + l ^ 2 + m ^ 2))
          / ((om ^ 2 - f ^ 2) * (N ^ 2 - om ^ 2)))
    by (field; split; assumption).
  rewrite Hdisp. unfold Rdiv. ring.
Qed.

(** X6: incompressibility.  When [om] is the frequency that [omega]
    returns for (N, k, m, l, f) and no amplitude is singular, the velocity
    amplitudes satisfy k U_0 + l V_0 + m W_0 = 0, and so do the evaluated
    fields at every point and time: k u + l v + m w = 0. *)
Theorem velocity_is_divergence_free
    (x y z t re im k l m om N f U V W phase_0 : R) :
  omega (Real N) (Real k) (Real m) (Real l) (Real f) = Real om ->
  om ^ 2 - f ^ 2 <> 0 ->
  N ^ 2 - om ^ 2 <> 0 ->
  (Real k * U_0 (Cplx re im) (Real k) (Real l) (Real om) (Real f)
   + Real l * V_0 (Cplx re im) (Real k) (Real l) (Real om) (Real f)
   + Real m * W_0 (Cplx re im) (Real m) (Real om) (Real N))%C = Cplx 0 0
  /\ (Real k * u (Real x) (Real y) (Real z) (Real t) (Cplx re im) (Real k) (Real l)
                 (Real m) (Real om) (Real f) (Real U) (Real V) (Real W) (Real phase_0)
      + Real l * v (Real x) (Real y) (Real z) (Real t) (Cplx re im) (Real k) (Real l)
                   (Real m) (Real om) (Real f) (Real U) (Real V) (Real W) (Real phase_0)
      + Real m * w (Real x) (Real y) (Real z) (Real t) (Cplx re im) (Real k) (Real l)
                   (Real m) (Real om) (Real N) (Real U) (Real V) (Real W) (Real phase_0))%py
     = Real 0.
Proof.
  intros Hom HA HB.
  pose proof (continuity_bracket k l m om N f HA HB (omega_solves_dispersion _ _ _ _ _ _ Hom))
    as Hbr.
  unfold u, v, w. cbv zeta.
  rewrite U_0_components, V_0_components, W_0_components, wave_phase_real by assumption.
  rewrite !field_value. r_eval.
  set (theta := k * x + l * y + m * z - (om + k * U + l * V + m * W) * t + phase_0).
  split.
  - apply Cplx_eq.
    + transitivity
        (om * re * ((k ^ 2 + l ^ 2) / (om ^ 2 - f ^ 2) - m ^ 2 / (N ^ 2 - om ^ 2)));
        [field; split; assumption | rewrite Hbr; ring].
    + transitivity
        (om * im * ((k ^ 2 + l ^ 2) / (om ^ 2 - f ^ 2) - m ^ 2 / (N ^ 2 - om ^ 2)));
        [field; split; assumption | rewrite Hbr; ring].
  - f_equal.
    transitivity
      (om * (re * cos theta - im * sin theta)
       * ((k ^ 2 + l ^ 2) / (om ^ 2 - f ^ 2) - m ^ 2 / (N ^ 2 - om ^ 2)));
      [field; split; assumption | rewrite Hbr; ring].
Qed.

Lemma sqrt_pow2_id (q : R) : 0 <= q -> sqrt q ^ 2 = q.
Proof.
  intros Hq. rewrite <- (sqrt_sqrt q Hq) at 2. ring.
Qed.

Lemma velocity_is_divergence_free_witness :
  (omega (Real 2) (Real 3) (Real 4) (Real 0) (Real 1)
   = Real (sqrt ((1 ^ 2 * 4 ^ 2 + 2 ^ 2 * (3 ^ 2 + 0 ^ 2)) / (3 ^ 2 + 0 ^ 2 + 4 ^ 2)))
   /\ sqrt ((1 ^ 2 * 4 ^ 2 + 2 ^ 2 * (3 ^ 2 + 0 ^ 2)) / (3 ^ 2 + 0 ^ 2 + 4 ^ 2)) ^ 2 - 1 ^ 2 <> 0
   /\ 2 ^ 2 - sqrt ((1 ^ 2 * 4 ^ 2 + 2 ^ 2 * (3 ^ 2 + 0 ^ 2)) / (3 ^ 2 + 0 ^ 2 + 4 ^ 2)) ^ 2 <> 0)
  /\ (Real 3 * U_0 (Cplx 1 2) (Real 3) (Real 0)
                 (Real (sqrt ((1 ^ 2 * 4 ^ 2 + 2 ^ 2 * (3 ^ 2 + 0 ^ 2)) / (3 ^ 2 + 0 ^ 2 + 4 ^ 2))))
                 (Real 1)
      + Real 0 * V_0 (Cplx 1 2) (Real 3) (Real 0)
                 (Real (sqrt ((1 ^ 2 * 4 ^ 2 + 2 ^ 2 * (3 ^ 2 + 0 ^ 2)) / (3 ^ 2 + 0 ^ 2 + 4 ^ 2))))
                 (Real 1)
      + Real 4 * W_0 (Cplx 1 2) (Real 4)
                 (Real (sqrt ((1 ^ 2 * 4 ^ 2 + 2 ^ 2 * (3 ^ 2 + 0 ^ 2)) / (3 ^ 2 + 0 ^ 2 + 4 ^ 2))))
                 (Real 2))%C = Cplx 0 0.
Proof.
  assert (Hne : ~ (3 = 0 /\ 0 = 0 /\ 4 = 0)) by (intros [H3 _]; lra).
  pose proof (omega_real 2 3 4 0 1 Hne) as Hom.
  assert (Hq : (1 ^ 2 * 4 ^ 2 + 2 ^ 2 * (3 ^ 2 + 0 ^ 2)) / (3 ^ 2 + 0 ^ 2 + 4 ^ 2) = 52 / 25)
    by field.
  assert (Hsq : sqrt ((1 ^ 2 * 4 ^ 2 + 2 ^ 2 * (3 ^ 2 + 0 ^ 2)) / (3 ^ 2 + 0 ^ 2 + 4 ^ 2)) ^ 2
                = 52 / 25)
    by (rewrite sqrt_pow2_id; lra).
  assert (HA : sqrt ((1 ^ 2 * 4 ^ 2 + 2 ^ 2 * (3 ^ 2 + 0 ^ 2)) / (3 ^ 2 + 0 ^ 2 + 4 ^ 2)) ^ 2
               - 1 ^ 2 <> 0)
    by (rewrite Hsq; lra).
  assert (HB : 2 ^ 2
               - sqrt ((1 ^ 2 * 4 ^ 2 + 2 ^ 2 * (3 ^ 2 + 0 ^ 2)) / (3 ^ 2 + 0 ^ 2 + 4 ^ 2)) ^ 2
               <> 0)
    by (rewrite Hsq; lra).
  split; [repeat split; assumption|].
  exact (proj1 (velocity_is_divergence_free 0 0 0 0 1 2 3 0 4 _ 2 1 0 0 0 0 Hom HA HB)).
Defined.

(** ** Singular frequencies *)

Lemma c_mul_nan_r (a : cval) : c_mul a CNaN = CNaN.
Proof. now destruct a. Qed.

Lemma c_div_nan_r (a : cval) : c_div a CNaN = CNaN.
Proof. now destruct a. Qed.

Lemma r_div_by_zero (a : rval) (d : R) : d = 0 -> r_div a (Real d) = NaN.
Proof.
  intros ->. destruct a as [x|]; [apply r_div_zero | reflexivity].
Qed.





(** ** Relations between the amplitudes *)

(** A real factor on the amplitude is a real factor on the field. *)
Lemma real_scaling_field (s : rval) (A ph : cval) :
  np_real (s * A * np_exp ph)%C = (s * np_real (A * np_exp ph)%C)%py.
Proof.
  destruct s as [s0|], A as [a1 a2|], ph as [p1 p2|]; r_eval; try reflexivity.
  f_equal. ring.
Qed.

Lemma B_0_from_ETA_0 (phi_0 : cval) (m om N : rval) :
  B_0 phi_0 m om N = ((N²)%py * ETA_0 phi_0 m om N)%C.
Proof.
  unfold B_0, ETA_0.
  destruct phi_0 as [re im|], m as [m0|], om as [om0|], N as [N0|];
    r_eval; rewrite ?c_div_nan_r, ?c_mul_nan_r; try reflexivity.
  destruct (Req_dec (N0 ^ 2 - om0 ^ 2) 0) as [Hz | Hnz].
  - rewrite !c_div_by_zero by assumption. reflexivity.
  - rewrite !c_div_by_real by assumption. r_eval. apply Cplx_eq; field; assumption.
Qed.

Lemma W_0_from_ETA_0 (phi_0 : cval) (m om N : rval) :
  W_0 phi_0 m om N = (_1j * om * ETA_0 phi_0 m om N)%C.
Proof.
  unfold W_0, ETA_0.
  destruct phi_0 as [re im|], m as [m0|], om as [om0|], N as [N0|];
    r_eval; rewrite ?c_div_nan_r, ?c_mul_nan_r; try reflexivity.
  destruct (Req_dec (N0 ^ 2 - om0 ^ 2) 0) as [Hz | Hnz].
  - rewrite c_div_by_zero, r_div_by_zero by assumption. reflexivity.
  - rewrite c_div_by_real, r_div_real by assumption. r_eval.
    apply Cplx_eq; field; assumption.
Qed.

(** X9: away from om = N and om = -N, buoyancy is N^2 times the isopycnal
    displacement: both amplitudes are finite with B_0 = N^2 ETA_0, and at
    every point and time [eta] is a real number e and [b] is N^2 e. *)
Theorem buoyancy_is_N2_displacement
    (x y z t re im k l m om N U V W phase_0 : R) :
  N ^ 2 - om ^ 2 <> 0 ->
  B_0 (Cplx re im) (Real m) (Real om) (Real N)
  = ((Real N)²%py * ETA_0 (Cplx re im) (Real m) (Real om) (Real N))%C
  /\ (exists a1 a2 : R, ETA_0 (Cplx re im) (Real m) (Real om) (Real N) = Cplx a1 a2)
  /\ exists e : R,
       eta (Real x) (Real y) (Real z) (Real t) (Cplx re im) (Real k) (Real l) (Real m)
         (Real om) (Real N) (Real U) (Real V) (Real W) (Real phase_0) = Real e
       /\ b (Real x) (Real y) (Real z) (Real t) (Cplx re im) (Real k) (Real l) (Real m)
            (Real om) (Real N) (Real U) (Real V) (Real W) (Real phase_0)
          = Real (N ^ 2 * e).
Proof.
  intros Hd. split; [apply B_0_from_ETA_0|]. split.
  - do 2 eexists. now apply ETA_0_components.
  - unfold b, eta. cbv zeta.
    rewrite B_0_components, ETA_0_components, wave_phase_real by assumption.
    rewrite !field_value. eexists. split; [reflexivity|].
    f_equal. field. assumption.
Qed.

Lemma buoyancy_is_N2_displacement_witness :
  3 ^ 2 - 2 ^ 2 <> 0 /\
  B_0 (Cplx 1 2) (Real 4) (Real 2) (Real 3)
  = ((Real 3)²%py * ETA_0 (Cplx 1 2) (Real 4) (Real 2) (Real 3))%C.
Proof.
  assert (Hd : 3 ^ 2 - 2 ^ 2 <> 0) by lra.
  split; [exact Hd|].
  exact (proj1 (buoyancy_is_N2_displacement 0 0 0 0 1 2 1 0 4 2 3 0 0 0 0 Hd)).
Defined.

(** X10: away from om = N and om = -N, the vertical velocity amplitude is
    1j * om times the displacement amplitude, and both are finite. *)
Theorem vertical_velocity_from_displacement (re im m om N : R) :
  N ^ 2 - om ^ 2 <> 0 ->
  W_0 (Cplx re im) (Real m) (Real om) (Real N)
  = (_1j * Real om * ETA_0 (Cplx re im) (Real m) (Real om) (Real N))%C
  /\ W_0 (Cplx re im) (Real m) (Real om) (Real N)
     = Cplx (- om * m * re / (N ^ 2 - om ^ 2)) (- om * m * im / (N ^ 2 - om ^ 2))
  /\ ETA_0 (Cplx re im) (Real m) (Real om) (Real N)
     = Cplx (- (m * im) / (N ^ 2 - om ^ 2)) (m * re / (N ^ 2 - om ^ 2)).
Proof.
  intros Hd. split; [apply W_0_from_ETA_0|]. split.
  - now apply W_0_components.
  - now apply ETA_0_components.
Qed.

Lemma vertical_velocity_from_displacement_witness :
  3 ^ 2 - 2 ^ 2 <> 0 /\
  W_0 (Cplx 1 2) (Real 4) (Real 2) (Real 3)
  = (_1j * Real 2 * ETA_0 (Cplx 1 2) (Real 4) (Real 2) (Real 3))%C.
Proof.
  assert (Hd : 3 ^ 2 - 2 ^ 2 <> 0) by lra.
  split; [exact Hd|].
  exact (proj1 (vertical_velocity_from_displacement 1 2 4 2 3 Hd)).
Defined.

(** ** Mean flow, periodicity and the non-rotating fields *)

Lemma phi_real (x y z t re im k l m om U V W phase_0 : R) :
  phi (Real x) (Real y) (Real z) (Real t) (Cplx re im) (Real k) (Real l) (Real m)
    (Real om) (Real U) (Real V) (Real W) (Real phase_0)
  = Real (re * cos (k * x + l * y + m * z - (om + k * U + l * V + m * W) * t + phase_0)
          - im * sin (k * x + l * y + m * z - (om + k * U + l * V + m * W) * t + phase_0)).
Proof.
  unfold phi. cbv zeta. rewrite wave_phase_real. apply field_value.
Qed.

(** X11: a mean flow (U, V, W) acts as a Doppler shift of the frequency by
    k U + l V + m W, and equally as an advection of the coordinates: the
    phase with the flow is the phase without it at frequency
    om + k U + l V + m W, and also at the point (x - U t, y - V t, z - W t). *)
Theorem mean_flow_doppler_shift (x y z t k l m om U V W phase_0 : R) :
  wave_phase (Real x) (Real y) (Real z) (Real t) (Real k) (Real l) (Real m)
    (Real om) (Real U) (Real V) (Real W) (Real phase_0)
  = wave_phase (Real x) (Real y) (Real z) (Real t) (Real k) (Real l) (Real m)
      (Real om + Real k * Real U + Real l * Real V + Real m * Real W)%py
      (Real 0) (Real 0) (Real 0) (Real phase_0)
  /\ wave_phase (Real x) (Real y) (Real z) (Real t) (Real k) (Real l) (Real m)
       (Real om) (Real U) (Real V) (Real W) (Real phase_0)
     = wave_phase (Real x - Real U * Real t)%py (Real y - Real V * Real t)%py
         (Real z - Real W * Real t)%py (Real t) (Real k) (Real l) (Real m)
         (Real om) (Real 0) (Real 0) (Real 0) (Real phase_0).
Proof.
  r_eval. rewrite !wave_phase_real. split; apply Cplx_eq; ring.
Qed.

(** X12: every field repeats after the Doppler-shifted period
    2 pi / (om + k U + l V + m W): the exponential of the phase, which all
    evaluators share, is the same at t and one period later, and so is
    [phi]. *)
Theorem fields_periodic_in_time (x y z t re im k l m om U V W phase_0 : R) :
  om + k * U + l * V + m * W <> 0 ->
  np_exp (wave_phase (Real x) (Real y) (Real z)
            (Real (t + 2 * PI / (om + k * U + l * V + m * W)))
            (Real k) (Real l) (Real m) (Real om) (Real U) (Real V) (Real W) (Real phase_0))
  = np_exp (wave_phase (Real x) (Real y) (Real z) (Real t)
              (Real k) (Real l) (Real m) (Real om) (Real U) (Real V) (Real W) (Real phase_0))
  /\ phi (Real x) (Real y) (Real z) (Real (t + 2 * PI / (om + k * U + l * V + m * W)))
       (Cplx re im) (Real k) (Real l) (Real m) (Real om) (Real U) (Real V) (Real W)
       (Real phase_0)
     = phi (Real x) (Real y) (Real z) (Real t)
         (Cplx re im) (Real k) (Real l) (Real m) (Real om) (Real U) (Real V) (Real W)
         (Real phase_0).
Proof.
  intros Hd.
  assert (Hexp :
    np_exp (wave_phase (Real x) (Real y) (Real z)
              (Real (t + 2 * PI / (om + k * U + l * V + m * W)))
              (Real k) (Real l) (Real m) (Real om) (Real U) (Real V) (Real W) (Real phase_0))
    = np_exp (wave_phase (Real x) (Real y) (Real z) (Real t)
                (Real k) (Real l) (Real m) (Real om) (Real U) (Real V) (Real W)
                (Real phase_0))).
  { rewrite !wave_phase_real, !np_exp_imaginary.
    set (theta := k * x + l * y + m * z - (om + k * U + l * V + m * W) * t + phase_0).
    replace (k * x + l * y + m * z
             - (om + k * U + l * V + m * W) * (t + 2 * PI / (om + k * U + l * V + m * W))
             + phase_0)
      with (theta - 2 * PI) by (unfold theta; field; assumption).
    rewrite <- (cos_period (theta - 2 * PI) 1), <- (sin_period (theta - 2 * PI) 1).
    cbn [INR]. apply Cplx_eq; f_equal; ring. }
  split; [exact Hexp|].
  unfold phi. cbv zeta. now rewrite Hexp.
Qed.

Lemma fields_periodic_in_time_witness :
  2 + 1 * 0 + 0 * 0 + 1 * 0 <> 0 /\
  phi (Real 0) (Real 0) (Real 0) (Real (0 + 2 * PI / (2 + 1 * 0 + 0 * 0 + 1 * 0)))
    (Cplx 1 0) (Real 1) (Real 0) (Real 1) (Real 2) (Real 0) (Real 0) (Real 0) (Real 0)
  = phi (Real 0) (Real 0) (Real 0) (Real 0)
      (Cplx 1 0) (Real 1) (Real 0) (Real 1) (Real 2) (Real 0) (Real 0) (Real 0) (Real 0).
Proof.
  assert (Hd : 2 + 1 * 0 + 0 * 0 + 1 * 0 <> 0) by lra.
  split; [exact Hd|].
  exact (proj2 (fields_periodic_in_time 0 0 0 0 1 0 1 0 1 2 0 0 0 0 Hd)).
Defined.

(** X13: without rotation (f = 0, om nonzero) the horizontal velocities
    are proportional to the pressure field at every point and time:
    u = (k/om) phi and v = (l/om) phi. *)
Theorem horizontal_velocity_without_rotation
    (x y z t re im k l m om U V W phase_0 : R) :
  om <> 0 ->
  u (Real x) (Real y) (Real z) (Real t) (Cplx re im) (Real k) (Real l) (Real m)
    (Real om) (Real 0) (Real U) (Real V) (Real W) (Real phase_0)
  = (Real k / Real om
     * phi (Real x) (Real y) (Real z) (Real t) (Cplx re im) (Real k) (Real l) (Real m)
         (Real om) (Real U) (Real V) (Real W) (Real phase_0))%py
  /\ v (Real x) (Real y) (Real z) (Real t) (Cplx re im) (Real k) (Real l) (Real m)
       (Real om) (Real 0) (Real U) (Real V) (Real W) (Real phase_0)
     = (Real l / Real om
        * phi (Real x) (Real y) (Real z) (Real t) (Cplx re im) (Real k) (Real l) (Real m)
            (Real om) (Real U) (Real V) (Real W) (Real phase_0))%py.
Proof.
  intros Hom.
  assert (Hd : om ^ 2 - 0 ^ 2 <> 0).
  { replace (om ^ 2 - 0 ^ 2) with (om * om) by ring.
    now apply Rmult_integral_contrapositive_currified. }
  rewrite phi_real. unfold u, v. cbv zeta.
  rewrite U_0_components, V_0_components, wave_phase_real by assumption.
  rewrite !field_value. r_eval. rewrite !r_div_real by assumption. r_eval.
  split; f_equal; field; assumption.
Qed.

Lemma horizontal_velocity_without_rotation_witness :
  2 <> 0 /\
  u (Real 1) (Real 0) (Real 0) (Real 0) (Cplx 1 0) (Real 3) (Real 0) (Real 4)
    (Real 2) (Real 0) (Real 0) (Real 0) (Real 0) (Real 0)
  = (Real 3 / Real 2
     * phi (Real 1) (Real 0) (Real 0) (Real 0) (Cplx 1 0) (Real 3) (Real 0) (Real 4)
         (Real 2) (Real 0) (Real 0) (Real 0) (Real 0))%py.
Proof.
  assert (Hom : 2 <> 0) by lra.
  split; [exact Hom|].
  exact (proj1 (horizontal_velocity_without_rotation 1 0 0 0 1 0 3 0 4 2 0 0 0 0 Hom)).
Defined.

(** ** Position stacks of other widths *)

Lemma take_last_short {A : Type} (j : nat) (r : list (list A)) :
  Exists (fun row => (length row <= j)%nat) r -> take_last j r = None.
Proof.
  induction 1 as [row rest Hrow | row rest _ IH]; cbn [take_last].
  - apply nth_error_None in Hrow. now rewrite Hrow.
  - rewrite IH. now destruct (nth_error row j).
Qed.

Lemma stack_columns (r : list (list rval)) :
  Forall (fun row => (3 <= length row)%nat) r ->
  take_last 0 r = Some (map (fun row => nth 0 row NaN) r)
  /\ take_last 1 r = Some (map (fun row => nth 1 row NaN) r)
  /\ take_last 2 r = Some (map (fun row => nth 2 row NaN) r).
Proof.
  intros Hshape.
  repeat split; apply take_last_in_range;
    (eapply Forall_impl; [|exact Hshape]); cbv beta; intros row Hrow;
    apply Nat.lt_le_trans with 3%nat; auto.
Qed.

Lemma wave_vel_wide (r : list (list rval)) (t : rval) (phi_0 : cval)
    (N f k l m om U V W phase_0 : rval) :
  Forall (fun row => (3 <= length row)%nat) r ->
  wave_vel r t phi_0 N f k l m om U V W phase_0
  = Some (map (fun row =>
                 [u (nth 0 row NaN) (nth 1 row NaN) (nth 2 row NaN) t
                    phi_0 k l m om f U V W phase_0;
                  v (nth 0 row NaN) (nth 1 row NaN) (nth 2 row NaN) t
                    phi_0 k l m om f U V W phase_0;
                  w (nth 0 row NaN) (nth 1 row NaN) (nth 2 row NaN) t
                    phi_0 k l m om N U V W phase_0]) r).
Proof.
  intros Hshape. destruct (stack_columns r Hshape) as (H0 & H1 & H2).
  unfold wave_vel. rewrite H0, H1, H2. cbv zeta.
  rewrite broadcast3_map, !map_map, np_T_vstack3. reflexivity.
Qed.

Lemma buoy_wide (r : list (list rval)) (t : rval) (phi_0 : cval)
    (N k l m om U V W phase_0 : rval) :
  Forall (fun row => (3 <= length row)%nat) r ->
  buoy r t phi_0 N k l m om U V W phase_0
  = Some (map (fun row =>
                 b (nth 0 row NaN) (nth 1 row NaN) (nth 2 row NaN) t
                   phi_0 k l m om N U V W phase_0) r).
Proof.
  intros Hshape. destruct (stack_columns r Hshape) as (H0 & H1 & H2).
  unfold buoy. rewrite H0, H1, H2. cbv zeta.
  rewrite broadcast3_map, map_map. reflexivity.
Qed.

(** X14: for a position stack of shape (P, 3) and a scalar [t], [buoy]
    returns P values, the p-th being [b] at the point
    (r[p,0], r[p,1], r[p,2], t) with the same wave parameters. *)
Theorem buoy_length_and_values (r : list (list rval)) (t : rval) (phi_0 : cval)
    (N k l m om U V W phase_0 : rval) :
  Forall (fun row => length row = 3%nat) r ->
  exists out : list rval,
    buoy r t phi_0 N k l m om U V W phase_0 = Some out
    /\ length out = length r
    /\ forall (p : nat) (x y z : rval),
         nth_error r p = Some [x; y; z] ->
         nth_error out p = Some (b x y z t phi_0 k l m om N U V W phase_0).
Proof.
  intros Hshape. eexists. split.
  - apply buoy_wide. eapply Forall_impl; [|exact Hshape].
    cbv beta. intros row ->. auto.
  - split; [apply length_map|].
    intros p x y z Hp. now rewrite (map_nth_error _ _ _ Hp).
Qed.

Lemma buoy_length_and_values_witness :
  Forall (fun row => length row = 3%nat) [[Real 0; Real 1; Real 2]] /\
  exists out : list rval,
    buoy [[Real 0; Real 1; Real 2]] (Real 10) (Cplx 1 0)
      (Real 3) (Real 1) (Real 0) (Real 1) (Real 2)
      (Real 0) (Real 0) (Real 0) (Real 0) = Some out
    /\ length out = 1%nat.
Proof.
  assert (Hshape : Forall (fun row => length row = 3%nat) [[Real 0; Real 1; Real 2]])
    by (repeat constructor).
  split; [exact Hshape|].
  destruct (buoy_length_and_values _ (Real 10) (Cplx 1 0)
              (Real 3) (Real 1) (Real 0) (Real 1) (Real 2)
              (Real 0) (Real 0) (Real 0) (Real 0) Hshape) as (out & Hout & Hlen & _).
  exists out. split; [exact Hout | exact Hlen].
Defined.

(** X15: the evaluators over a stack read the first three components of a
    row and nothing else: on rows of three or more components [wave_vel]
    and [buoy] return what they return on the rows cut to three. *)
Theorem stack_evaluators_ignore_extra_columns
    (r : list (list rval)) (t : rval) (phi_0 : cval)
    (N f k l m om U V W phase_0 : rval) :
  Forall (fun row => (3 <= length row)%nat) r ->
  wave_vel r t phi_0 N f k l m om U V W phase_0
  = wave_vel (map (firstn 3) r) t phi_0 N f k l m om U V W phase_0
  /\ buoy r t phi_0 N k l m om U V W phase_0
     = buoy (map (firstn 3) r) t phi_0 N k l m om U V W phase_0.
Proof.
  intros Hshape.
  assert (Hcut : Forall (fun row : list rval => (3 <= length row)%nat) (map (firstn 3) r)).
  { apply Forall_map. eapply Forall_impl; [|exact Hshape].
    cbv beta. intros row Hrow. rewrite length_firstn. now rewrite Nat.min_l. }
  assert (Hnth : forall j, (j < 3)%nat ->
            Forall (fun row : list rval => nth j (firstn 3 row) NaN = nth j row NaN) r).
  { intros j Hj. apply Forall_forall. intros row _.
    rewrite <- (firstn_skipn 3 row) at 2.
    destruct (Nat.lt_ge_cases j (length (firstn 3 row))) as [Hlt | Hge].
    - now rewrite app_nth1.
    - rewrite (nth_overflow (firstn 3 row)) by assumption.
      rewrite length_firstn in Hge.
      destruct (Nat.min_spec 3 (length row)) as [[_ E] | [Hle E]]; rewrite E in Hge.
      + exfalso. apply (Nat.lt_irrefl j). now apply Nat.lt_le_trans with 3%nat.
      + rewrite firstn_all2, skipn_all2 by assumption.
        rewrite app_nil_r. symmetry. now apply nth_overflow. }
  rewrite (wave_vel_wide _ _ _ _ _ _ _ _ _ _ _ _ _ Hshape),
    (wave_vel_wide _ _ _ _ _ _ _ _ _ _ _ _ _ Hcut),
    (buoy_wide _ _ _ _ _ _ _ _ _ _ _ _ Hshape),
    (buoy_wide _ _ _ _ _ _ _ _ _ _ _ _ Hcut), !map_map.
  pose proof (Hnth 0%nat ltac:(auto)) as H0.
  pose proof (Hnth 1%nat ltac:(auto)) as H1.
  pose proof (Hnth 2%nat ltac:(auto)) as H2.
  rewrite Forall_forall in H0, H1, H2.
  split; f_equal; symmetry; apply map_ext_in; intros row Hin;
    now rewrite (H0 row Hin), (H1 row Hin), (H2 row Hin).
Qed.

Lemma stack_evaluators_ignore_extra_columns_witness :
  Forall (fun row => (3 <= length row)%nat) [[Real 0; Real 1; Real 2; Real 9]] /\
  buoy [[Real 0; Real 1; Real 2; Real 9]] (Real 10) (Cplx 1 0)
    (Real 3) (Real 1) (Real 0) (Real 1) (Real 2) (Real 0) (Real 0) (Real 0) (Real 0)
  = buoy (map (firstn 3) [[Real 0; Real 1; Real 2; Real 9]]) (Real 10) (Cplx 1 0)
      (Real 3) (Real 1) (Real 0) (Real 1) (Real 2) (Real 0) (Real 0) (Real 0) (Real 0).
Proof.
  assert (Hshape : Forall (fun row : list rval => (3 <= length row)%nat)
                     [[Real 0; Real 1; Real 2; Real 9]])
    by (repeat constructor).
  split; [exact Hshape|].
  exact (proj2 (stack_evaluators_ignore_extra_columns _ (Real 10) (Cplx 1 0)
                  (Real 3) (Real 0) (Real 1) (Real 0) (Real 1) (Real 2)
                  (Real 0) (Real 0) (Real 0) (Real 0) Hshape)).
Defined.

(** X16: a row with fewer than three components is an index error: both
    evaluators fail and return nothing. *)
Theorem stack_evaluators_reject_short_rows
    (r : list (list rval)) (t : rval) (phi_0 : cval)
    (N f k l m om U V W phase_0 : rval) :
  Exists (fun row => (length row < 3)%nat) r ->
  wave_vel r t phi_0 N f k l m om U V W phase_0 = None
  /\ buoy r t phi_0 N k l m om U V W phase_0 = None.
Proof.
  intros Hshort.
  assert (H2 : take_last 2 r = None).
  { apply take_last_short. eapply Exists_impl; [|exact Hshort].
    cbv beta. intros row Hrow. now apply Nat.lt_succ_r. }
  unfold wave_vel, buoy. rewrite H2.
  split; destruct (take_last 0 r), (take_last 1 r); reflexivity.
Qed.

Lemma stack_evaluators_reject_short_rows_witness :
  Exists (fun row => (length row < 3)%nat) [[Real 0; Real 1; Real 2]; [Real 0; Real 1]] /\
  wave_vel [[Real 0; Real 1; Real 2]; [Real 0; Real 1]] (Real 10) (Cplx 1 0)
    (Real 3) (Real 1) (Real 1) (Real 0) (Real 1) (Real 2)
    (Real 0) (Real 0) (Real 0) (Real 0) = None.
Proof.
  assert (Hshort : Exists (fun row : list rval => (length row < 3)%nat)
                     [[Real 0; Real 1; Real 2]; [Real 0; Real 1]])
    by (apply Exists_cons_tl, Exists_cons_hd; cbn; auto).
  split; [exact Hshort|].
  exact (proj1 (stack_evaluators_reject_short_rows _ (Real 10) (Cplx 1 0)
                  (Real 3) (Real 1) (Real 1) (Real 0) (Real 1) (Real 2)
                  (Real 0) (Real 0) (Real 0) (Real 0) Hshort)).
Defined.

(** ** Azimuth of the wavevector *)

Lemma sqrt_abs_square (x : R) : sqrt (x ^ 2) = Rabs x.
Proof.
  rewrite <- Rsqr_pow2. apply sqrt_Rsqr_abs.
Qed.

Lemma hypot_quotient (x y : R) :
  x <> 0 -> sqrt (1 + (y / x)²) = sqrt (x ^ 2 + y ^ 2) / Rabs x.
Proof.
  intros Hx.
  assert (Hx2 : 0 < x ^ 2) by (destruct (Rdichotomy _ _ Hx); nra).
  replace (1 + (y / x)²) with ((x ^ 2 + y ^ 2) / x ^ 2) by (unfold Rsqr; field; assumption).
  rewrite sqrt_div_alt by assumption. now rewrite sqrt_abs_square.
Qed.

Lemma hypot_pos (x y : R) : ~ (x = 0 /\ y = 0) -> 0 < sqrt (x ^ 2 + y ^ 2).
Proof.
  intros Hne. apply sqrt_lt_R0.
  pose proof (sum_sq_pos x y 0) as Hp.
  replace (x ^ 2 + y ^ 2 + 0 ^ 2) with (x ^ 2 + y ^ 2) in Hp by ring.
  apply Hp. intros (Hx & Hy & _). now apply Hne.
Qed.

Lemma atan_quotient_cos_sin (x y : R) :
  x <> 0 ->
  cos (atan (y / x)) = Rabs x / sqrt (x ^ 2 + y ^ 2)
  /\ sin (atan (y / x)) = y / x * (Rabs x / sqrt (x ^ 2 + y ^ 2)).
Proof.
  intros Hx.
  assert (Hh : 0 < sqrt (x ^ 2 + y ^ 2)) by (apply hypot_pos; tauto).
  assert (Ha : 0 < Rabs x) by now apply Rabs_pos_lt.
  rewrite cos_atan, sin_atan, hypot_quotient by assumption.
  split; field; lra.
Qed.

(** The angle returned by [atan2] points along (x, y). *)
Lemma atan2_direction (y x : R) :
  ~ (x = 0 /\ y = 0) ->
  cos (atan2 y x) = x / sqrt (x ^ 2 + y ^ 2)
  /\ sin (atan2 y x) = y / sqrt (x ^ 2 + y ^ 2).
Proof.
  intros Hne. pose proof (hypot_pos x y Hne) as Hh. unfold atan2.
  destruct (Rlt_dec 0 x) as [Hpos | Hnpos].
  - destruct (atan_quotient_cos_sin x y ltac:(lra)) as [Hc Hs].
    rewrite Hc, Hs, Rabs_right by lra. split; field; lra.
  - destruct (Rlt_dec x 0) as [Hneg | Hnneg].
    + destruct (atan_quotient_cos_sin x y ltac:(lra)) as [Hc Hs].
      destruct (Rle_dec 0 y) as [Hy | Hy].
      * rewrite neg_cos, neg_sin, Hc, Hs, Rabs_left by lra. split; field; lra.
      * unfold Rminus. rewrite cos_plus, sin_plus, cos_neg, sin_neg, cos_PI, sin_PI.
        rewrite Hc, Hs, Rabs_left by lra. split; field; lra.
    + assert (Hx : x = 0) by lra. subst x.
      replace (0 ^ 2 + y ^ 2) with (y ^ 2) in * by ring.
      rewrite sqrt_abs_square in *.
      destruct (Rlt_dec 0 y) as [Hy | Hy].
      * rewrite cos_PI2, sin_PI2, Rabs_right by lra. split; field; lra.
      * destruct (Rlt_dec y 0) as [Hy' | Hy'].
        -- rewrite cos_neg, sin_neg, cos_PI2, sin_PI2, Rabs_left by lra. split; field; lra.
        -- exfalso. apply Hne. split; lra.
Qed.

Lemma atan2_range (y x : R) : - PI < atan2 y x <= PI.
Proof.
  pose proof PI_RGT_0 as Hpi. unfold atan2.
  destruct (Rlt_dec 0 x) as [Hpos | Hnpos].
  - pose proof (atan_bound (y / x)). lra.
  - destruct (Rlt_dec x 0) as [Hneg | Hnneg].
    + pose proof (atan_bound (y / x)) as Hb.
      destruct (Rle_dec 0 y) as [Hy | Hy].
      * assert (Hq : y / x <= 0).
        { unfold Rdiv. replace (y * / x) with (- (y * / - x)) by (field; lra).
          assert (0 <= y * / - x)
            by (apply Rmult_le_pos; [lra | left; apply Rinv_0_lt_compat; lra]).
          lra. }
        destruct Hq as [Hq | Hq].
        -- pose proof (atan_increasing _ _ Hq) as Hi. rewrite atan_0 in Hi. lra.
        -- rewrite Hq, atan_0. lra.
      * assert (Hq : 0 < y / x).
        { unfold Rdiv. replace (y * / x) with (- y * / - x) by (field; lra).
          apply Rmult_lt_0_compat; [lra | apply Rinv_0_lt_compat; lra]. }
        pose proof (atan_increasing _ _ Hq) as Hi. rewrite atan_0 in Hi. lra.
    + destruct (Rlt_dec 0 y); [lra|]. destruct (Rlt_dec y 0); lra.
Qed.

(** X17: [lambdap(k, l)] is the azimuth of the horizontal wavevector: it
    lies in (-pi, pi] and, when (k, l) is not zero, its cosine and sine are
    k / sqrt(k^2 + l^2) and l / sqrt(k^2 + l^2). *)
Theorem lambdap_is_azimuth (k l : R) :
  ~ (k = 0 /\ l = 0) ->
  exists a : R,
    lambdap (Real k) (Real l) = Real a
    /\ - PI < a <= PI
    /\ cos a = k / sqrt (k ^ 2 + l ^ 2)
    /\ sin a = l / sqrt (k ^ 2 + l ^ 2).
Proof.
  intros Hne. exists (atan2 l k).
  split; [reflexivity|]. split; [apply atan2_range|].
  now apply atan2_direction.
Qed.

Lemma lambdap_is_azimuth_witness :
  ~ (-1 = 0 /\ 0 = 0) /\
  exists a : R,
    lambdap (Real (-1)) (Real 0) = Real a
    /\ - PI < a <= PI
    /\ cos a = -1 / sqrt ((-1) ^ 2 + 0 ^ 2)
    /\ sin a = 0 / sqrt ((-1) ^ 2 + 0 ^ 2).
Proof.
  assert (Hne : ~ (-1 = 0 /\ 0 = 0)) by (intros [H1 _]; lra).
  split; [exact Hne | exact (lambdap_is_azimuth (-1) 0 Hne)].
Defined.

(** ** The polar angle and the group velocity vector *)

Lemma sin_phip_abs (k m l : R) :
  ~ (k = 0 /\ l = 0 /\ m = 0) ->
  sqrt (m ^ 2 / (k ^ 2 + l ^ 2 + m ^ 2)) = Rabs m / sqrt (k ^ 2 + l ^ 2 + m ^ 2).
Proof.
  intros Hne. pose proof (sum_sq_pos k l m Hne) as HK.
  rewrite sqrt_div_alt by assumption. now rewrite sqrt_abs_square.
Qed.

Lemma cos_phip_value (k m l : R) :
  ~ (k = 0 /\ l = 0 /\ m = 0) ->
  cos (asin (sqrt (m ^ 2 / (k ^ 2 + l ^ 2 + m ^ 2))))
  = sqrt (k ^ 2 + l ^ 2) / sqrt (k ^ 2 + l ^ 2 + m ^ 2).
Proof.
  intros Hne. pose proof (sum_sq_pos k l m Hne) as HK.
  pose proof (vertical_fraction_bounds k m l Hne) as [Hq0 Hq1].
  pose proof (sin_phip_bounds k m l Hne) as [Hs0 Hs1].
  rewrite cos_asin by lra. rewrite Rsqr_sqrt by assumption.
  rewrite <- sqrt_div_alt by assumption. f_equal. field. lra.
Qed.

(** X18: the sine and cosine of the polar angle are |m| / |K| and
    sqrt(k^2 + l^2) / |K|, with |K| = sqrt(k^2 + l^2 + m^2): the angle is
    measured from the horizontal and does not see the sign of m. *)
Theorem phip_sine_cosine (k m l : R) :
  ~ (k = 0 /\ l = 0 /\ m = 0) ->
  exists p : R,
    phip (Real k) (Real m) (Real l) = Real p
    /\ sin p = Rabs m / sqrt (k ^ 2 + l ^ 2 + m ^ 2)
    /\ cos p = sqrt (k ^ 2 + l ^ 2) / sqrt (k ^ 2 + l ^ 2 + m ^ 2).
Proof.
  intros Hne. pose proof (sin_phip_bounds k m l Hne) as [Hs0 Hs1].
  eexists. split; [now apply phip_real|]. split.
  - rewrite sin_asin by lra. now apply sin_phip_abs.
  - now apply cos_phip_value.
Qed.

Lemma phip_sine_cosine_witness :
  ~ (3 = 0 /\ 0 = 0 /\ -4 = 0) /\
  exists p : R,
    phip (Real 3) (Real (-4)) (Real 0) = Real p
    /\ sin p = Rabs (-4) / sqrt (3 ^ 2 + 0 ^ 2 + (-4) ^ 2)
    /\ cos p = sqrt (3 ^ 2 + 0 ^ 2) / sqrt (3 ^ 2 + 0 ^ 2 + (-4) ^ 2).
Proof.
  assert (Hne : ~ (3 = 0 /\ 0 = 0 /\ -4 = 0)) by (intros [H3 _]; lra).
  split; [exact Hne | exact (phip_sine_cosine 3 (-4) 0 Hne)].
Defined.

Lemma Real3_eq (x1 x2 x3 y1 y2 y3 : R) :
  x1 = y1 -> x2 = y2 -> x3 = y3 -> [Real x1; Real x2; Real x3] = [Real y1; Real y2; Real y3].
Proof. now intros -> -> ->. Qed.

(** The group velocity vector in components. *)
Lemma cgvec_components (k l m N f : R) :
  ~ (k = 0 /\ l = 0) ->
  f ^ 2 * m ^ 2 + N ^ 2 * (k ^ 2 + l ^ 2) <> 0 ->
  cgvec (Real k) (Real l) (Real m) (Real N) (Real f)
  = [Real (k * m ^ 2 * (N ^ 2 - f ^ 2)
           / ((k ^ 2 + l ^ 2 + m ^ 2) * sqrt (k ^ 2 + l ^ 2 + m ^ 2)
              * sqrt (f ^ 2 * m ^ 2 + N ^ 2 * (k ^ 2 + l ^ 2))));
     Real (l * m ^ 2 * (N ^ 2 - f ^ 2)
           / ((k ^ 2 + l ^ 2 + m ^ 2) * sqrt (k ^ 2 + l ^ 2 + m ^ 2)
              * sqrt (f ^ 2 * m ^ 2 + N ^ 2 * (k ^ 2 + l ^ 2))));
     Real (- Rabs m * (N ^ 2 - f ^ 2) * (k ^ 2 + l ^ 2)
           / ((k ^ 2 + l ^ 2 + m ^ 2) * sqrt (k ^ 2 + l ^ 2 + m ^ 2)
              * sqrt (f ^ 2 * m ^ 2 + N ^ 2 * (k ^ 2 + l ^ 2))))].
Proof.
  intros Hkl HD.
  assert (Hne : ~ (k = 0 /\ l = 0 /\ m = 0)) by (intros (Hk & Hl & _); now apply Hkl).
  pose proof (sum_sq_pos k l m Hne) as HK.
  assert (HDpos : 0 < f ^ 2 * m ^ 2 + N ^ 2 * (k ^ 2 + l ^ 2))
    by (pose proof (dispersion_numerator_nonneg N k m l f); lra).
  pose proof (sqrt_lt_R0 _ HK) as Hs. pose proof (sqrt_lt_R0 _ HDpos) as Hd.
  pose proof (hypot_pos k l Hkl) as Hh.
  pose proof (sqrt_sqrt (k ^ 2 + l ^ 2 + m ^ 2) ltac:(lra)) as Hss.
  assert (Hhh : sqrt (k ^ 2 + l ^ 2) * sqrt (k ^ 2 + l ^ 2) = k ^ 2 + l ^ 2).
  { apply sqrt_sqrt. pose proof (pow2_ge_0 k). pose proof (pow2_ge_0 l). lra. }
  assert (Haa : Rabs m * Rabs m = m ^ 2) by (rewrite <- pow2_abs; ring).
  pose proof (sin_phip_bounds k m l Hne) as Hsb.
  destruct (atan2_direction l k Hkl) as [Hcl Hsl].
  unfold cgvec. cbv zeta.
  rewrite (omega_real N k m l f Hne), (phip_real k m l Hne).
  unfold lambdap, np_arctan2, np_cos, np_sin. r_eval. rewrite r_sqrt_real by lra.
  rewrite sin_asin by lra.
  rewrite (cos_phip_value k m l Hne), (sin_phip_abs k m l Hne), Hcl, Hsl.
  rewrite (sqrt_div_alt (f ^ 2 * m ^ 2 + N ^ 2 * (k ^ 2 + l ^ 2))) by assumption.
  r_eval.
  set (s := sqrt (k ^ 2 + l ^ 2 + m ^ 2)) in *.
  set (h := sqrt (k ^ 2 + l ^ 2)) in *.
  set (d := sqrt (f ^ 2 * m ^ 2 + N ^ 2 * (k ^ 2 + l ^ 2))) in *.
  set (a := Rabs m) in *.
  rewrite r_div_real by (unfold Rdiv; repeat apply Rmult_integral_contrapositive_currified;
                         try apply Rinv_neq_0_compat; lra).
  cbn [map]. r_eval.
  rewrite <- Hss, <- Hhh, <- Haa.
  apply Real3_eq; field; repeat split; lra.
Qed.

(** X19: the group velocity vector in closed form.  With (k, l) not both
    zero and D = f^2 m^2 + N^2 (k^2 + l^2) nonzero, its components are
    k m^2 c, l m^2 c and -|m| (k^2 + l^2) c, with the common factor
    c = (N^2 - f^2) / (|K|^3 sqrt D). *)
Theorem cgvec_closed_form (k l m N f : R) :
  ~ (k = 0 /\ l = 0) ->
  f ^ 2 * m ^ 2 + N ^ 2 * (k ^ 2 + l ^ 2) <> 0 ->
  cgvec (Real k) (Real l) (Real m) (Real N) (Real f)
  = [Real (k * m ^ 2 * (N ^ 2 - f ^ 2)
           / ((k ^ 2 + l ^ 2 + m ^ 2) * sqrt (k ^ 2 + l ^ 2 + m ^ 2)
              * sqrt (f ^ 2 * m ^ 2 + N ^ 2 * (k ^ 2 + l ^ 2))));
     Real (l * m ^ 2 * (N ^ 2 - f ^ 2)
           / ((k ^ 2 + l ^ 2 + m ^ 2) * sqrt (k ^ 2 + l ^ 2 + m ^ 2)
              * sqrt (f ^ 2 * m ^ 2 + N ^ 2 * (k ^ 2 + l ^ 2))));
     Real (- Rabs m * (N ^ 2 - f ^ 2) * (k ^ 2 + l ^ 2)
           / ((k ^ 2 + l ^ 2 + m ^ 2) * sqrt (k ^ 2 + l ^ 2 + m ^ 2)
              * sqrt (f ^ 2 * m ^ 2 + N ^ 2 * (k ^ 2 + l ^ 2))))].
Proof.
  exact (cgvec_components k l m N f).
Qed.

Lemma cgvec_closed_form_witness :
  (~ (3 = 0 /\ 0 = 0) /\ 1 ^ 2 * (-4) ^ 2 + 2 ^ 2 * (3 ^ 2 + 0 ^ 2) <> 0) /\
  cgvec (Real 3) (Real 0) (Real (-4)) (Real 2) (Real 1)
  = [Real (3 * (-4) ^ 2 * (2 ^ 2 - 1 ^ 2)
           / ((3 ^ 2 + 0 ^ 2 + (-4) ^ 2) * sqrt (3 ^ 2 + 0 ^ 2 + (-4) ^ 2)
              * sqrt (1 ^ 2 * (-4) ^ 2 + 2 ^ 2 * (3 ^ 2 + 0 ^ 2))));
     Real (0 * (-4) ^ 2 * (2 ^ 2 - 1 ^ 2)
           / ((3 ^ 2 + 0 ^ 2 + (-4) ^ 2) * sqrt (3 ^ 2 + 0 ^ 2 + (-4) ^ 2)
              * sqrt (1 ^ 2 * (-4) ^ 2 + 2 ^ 2 * (3 ^ 2 + 0 ^ 2))));
     Real (- Rabs (-4) * (2 ^ 2 - 1 ^ 2) * (3 ^ 2 + 0 ^ 2)
           / ((3 ^ 2 + 0 ^ 2 + (-4) ^ 2) * sqrt (3 ^ 2 + 0 ^ 2 + (-4) ^ 2)
              * sqrt (1 ^ 2 * (-4) ^ 2 + 2 ^ 2 * (3 ^ 2 + 0 ^ 2))))].
Proof.
  assert (Hkl : ~ (3 = 0 /\ 0 = 0)) by (intros [H3 _]; lra).
  assert (HD : 1 ^ 2 * (-4) ^ 2 + 2 ^ 2 * (3 ^ 2 + 0 ^ 2) <> 0) by lra.
  split; [split; assumption | exact (cgvec_closed_form 3 0 (-4) 2 1 Hkl HD)].
Defined.

(** X20: [cgvec] does not see the sign of m.  The vector for -m is the
    vector for m, and its third component is what [cgz] returns for |m|;
    for m < 0 it is therefore the opposite of cgz(k, m, N, l, f). *)
Theorem cgvec_blind_to_sign_of_m (k l m N f : R) :
  ~ (k = 0 /\ l = 0) ->
  f ^ 2 * m ^ 2 + N ^ 2 * (k ^ 2 + l ^ 2) <> 0 ->
  cgvec (Real k) (Real l) (Real (- m)) (Real N) (Real f)
  = cgvec (Real k) (Real l) (Real m) (Real N) (Real f)
  /\ nth_error (cgvec (Real k) (Real l) (Real m) (Real N) (Real f)) 2
     = Some (cgz (Real k) (Real (Rabs m)) (Real N) (Real l) (Real f))
  /\ (m < 0 ->
      nth_error (cgvec (Real k) (Real l) (Real m) (Real N) (Real f)) 2
      = Some (- cgz (Real k) (Real m) (Real N) (Real l) (Real f))%py).
Proof.
  intros Hkl HD.
  assert (HDn : f ^ 2 * (- m) ^ 2 + N ^ 2 * (k ^ 2 + l ^ 2) <> 0)
    by (replace ((- m) ^ 2) with (m ^ 2) by ring; assumption).
  assert (HDa : f ^ 2 * Rabs m ^ 2 + N ^ 2 * (k ^ 2 + l ^ 2) <> 0)
    by (rewrite pow2_abs; assumption).
  rewrite (cgvec_components k l (- m) N f Hkl HDn), (cgvec_components k l m N f Hkl HD).
  rewrite (cgz_real k (Rabs m) N l f Hkl HDa), (cgz_real k m N l f Hkl HD).
  rewrite Rabs_Ropp, pow2_abs.
  replace ((- m) ^ 2) with (m ^ 2) by ring.
  split; [reflexivity|]. split; [reflexivity|].
  intros Hm. cbn [nth_error]. r_eval. rewrite Rabs_left by assumption.
  do 2 f_equal. unfold Rdiv. ring.
Qed.

Lemma cgvec_blind_to_sign_of_m_witness :
  (~ (3 = 0 /\ 0 = 0) /\ 1 ^ 2 * (-4) ^ 2 + 2 ^ 2 * (3 ^ 2 + 0 ^ 2) <> 0 /\ -4 < 0) /\
  nth_error (cgvec (Real 3) (Real 0) (Real (-4)) (Real 2) (Real 1)) 2
  = Some (- cgz (Real 3) (Real (-4)) (Real 2) (Real 0) (Real 1))%py.
Proof.
  assert (Hkl : ~ (3 = 0 /\ 0 = 0)) by (intros [H3 _]; lra).
  assert (HD : 1 ^ 2 * (-4) ^ 2 + 2 ^ 2 * (3 ^ 2 + 0 ^ 2) <> 0) by lra.
  assert (Hm : -4 < 0) by lra.
  split; [repeat split; assumption|].
  exact (proj2 (proj2 (cgvec_blind_to_sign_of_m 3 0 (-4) 2 1 Hkl HD)) Hm).
Defined.

(** X21: for m >= 0 the group velocity returned by [cgvec] is
    perpendicular to the wavevector: k cg_x + l cg_y + m cg_z = 0. *)
Theorem cgvec_perpendicular_to_wavevector (k l m N f : R) :
  0 <= m ->
  ~ (k = 0 /\ l = 0) ->
  f ^ 2 * m ^ 2 + N ^ 2 * (k ^ 2 + l ^ 2) <> 0 ->
  exists cx cy cz : R,
    cgvec (Real k) (Real l) (Real m) (Real N) (Real f) = [Real cx; Real cy; Real cz]
    /\ k * cx + l * cy + m * cz = 0.
Proof.
  intros Hm Hkl HD.
  assert (Hne : ~ (k = 0 /\ l = 0 /\ m = 0)) by (intros (Hk & Hl & _); now apply Hkl).
  pose proof (sum_sq_pos k l m Hne) as HK.
  assert (HDpos : 0 < f ^ 2 * m ^ 2 + N ^ 2 * (k ^ 2 + l ^ 2))
    by (pose proof (dispersion_numerator_nonneg N k m l f); lra).
  pose proof (sqrt_lt_R0 _ HK) as Hs. pose proof (sqrt_lt_R0 _ HDpos) as Hd.
  do 3 eexists. split; [now apply cgvec_components|].
  rewrite Rabs_right by lra. field. repeat split; lra.
Qed.

Lemma cgvec_perpendicular_to_wavevector_witness :
  (0 <= 4 /\ ~ (3 = 0 /\ 0 = 0) /\ 1 ^ 2 * 4 ^ 2 + 2 ^ 2 * (3 ^ 2 + 0 ^ 2) <> 0) /\
  exists cx cy cz : R,
    cgvec (Real 3) (Real 0) (Real 4) (Real 2) (Real 1) = [Real cx; Real cy; Real cz]
    /\ 3 * cx + 0 * cy + 4 * cz = 0.
Proof.
  assert (Hm : 0 <= 4) by lra.
  assert (Hkl : ~ (3 = 0 /\ 0 = 0)) by (intros [H3 _]; lra).
  assert (HD : 1 ^ 2 * 4 ^ 2 + 2 ^ 2 * (3 ^ 2 + 0 ^ 2) <> 0) by lra.
  split; [repeat split; assumption|].
  exact (cgvec_perpendicular_to_wavevector 3 0 4 2 1 Hm Hkl HD).
Defined.

(** X22: when N^2 > f^2 the vertical group velocity [cgz] is opposite in
    sign to the vertical wavenumber: negative for m > 0, positive for
    m < 0 and zero for m = 0. *)
Theorem cgz_opposes_vertical_wavenumber (k m N l f : R) :
  ~ (k = 0 /\ l = 0) ->
  f ^ 2 < N ^ 2 ->
  exists c : R,
    cgz (Real k) (Real m) (Real N) (Real l) (Real f) = Real c
    /\ (0 < m -> c < 0) /\ (m < 0 -> 0 < c) /\ (m = 0 -> c = 0).
Proof.
  intros Hkl HNf.
  assert (Hne : ~ (k = 0 /\ l = 0 /\ m = 0)) by (intros (Hk & Hl & _); now apply Hkl).
  pose proof (sum_sq_pos k l m Hne) as HK.
  assert (Hh : 0 < k ^ 2 + l ^ 2).
  { pose proof (sum_sq_pos k l 0) as Hp.
    replace (k ^ 2 + l ^ 2 + 0 ^ 2) with (k ^ 2 + l ^ 2) in Hp by ring.
    apply Hp. intros (Hk & Hl & _). now apply Hkl. }
  assert (HDpos : 0 < f ^ 2 * m ^ 2 + N ^ 2 * (k ^ 2 + l ^ 2)).
  { pose proof (pow2_ge_0 f). pose proof (pow2_ge_0 m).
    assert (0 <= f ^ 2 * m ^ 2) by (apply Rmult_le_pos; assumption).
    assert (0 < N ^ 2 * (k ^ 2 + l ^ 2)) by (apply Rmult_lt_0_compat; lra).
    lra. }
  pose proof (sqrt_lt_R0 _ HK) as Hs. pose proof (sqrt_lt_R0 _ HDpos) as Hd.
  eexists. split; [apply cgz_real; [assumption | lra]|].
  set (den := (k ^ 2 + l ^ 2 + m ^ 2) * sqrt (k ^ 2 + l ^ 2 + m ^ 2)
              * sqrt (f ^ 2 * m ^ 2 + N ^ 2 * (k ^ 2 + l ^ 2))).
  assert (Hden : 0 < den) by (unfold den; repeat apply Rmult_lt_0_compat; assumption).
  assert (Hpos : 0 < (N ^ 2 - f ^ 2) * (k ^ 2 + l ^ 2) / den).
  { unfold Rdiv. repeat apply Rmult_lt_0_compat; try lra. now apply Rinv_0_lt_compat. }
  replace (- m * (N ^ 2 - f ^ 2) * (k ^ 2 + l ^ 2) / den)
    with (- m * ((N ^ 2 - f ^ 2) * (k ^ 2 + l ^ 2) / den)) by (unfold Rdiv; ring).
  repeat split; intros Hm; nra.
Qed.

Lemma cgz_opposes_vertical_wavenumber_witness :
  (~ (3 = 0 /\ 0 = 0) /\ 1 ^ 2 < 2 ^ 2) /\
  exists c : R,
    cgz (Real 3) (Real 4) (Real 2) (Real 0) (Real 1) = Real c
    /\ (0 < 4 -> c < 0) /\ (4 < 0 -> 0 < c) /\ (4 = 0 -> c = 0).
Proof.
  assert (Hkl : ~ (3 = 0 /\ 0 = 0)) by (intros [H3 _]; lra).
  assert (HNf : 1 ^ 2 < 2 ^ 2) by lra.
  split; [split; assumption | exact (cgz_opposes_vertical_wavenumber 3 4 2 0 1 Hkl HNf)].
Defined.

(** ** Aspect ratio and fluxes *)

(** X23: for m not zero, [alpha] is the horizontal wavenumber over the
    magnitude of the vertical one, sqrt(k^2 + l^2) / |m|. *)
Theorem alpha_is_horizontal_over_vertical (k m l : R) :
  m <> 0 ->
  alpha (Real k) (Real m) (Real l) = Real (sqrt (k ^ 2 + l ^ 2) / Rabs m).
Proof.
  intros Hm.
  assert (Hm2 : 0 < m ^ 2) by (destruct (Rdichotomy _ _ Hm); nra).
  unfold alpha. r_eval. rewrite r_div_real by lra.
  rewrite r_sqrt_real.
  - now rewrite sqrt_div_alt, sqrt_abs_square.
  - apply quotient_nonneg; [|assumption].
    pose proof (pow2_ge_0 k). pose proof (pow2_ge_0 l). lra.
Qed.

Lemma alpha_is_horizontal_over_vertical_witness :
  -2 <> 0 /\
  alpha (Real 3) (Real (-2)) (Real 4) = Real (sqrt (3 ^ 2 + 4 ^ 2) / Rabs (-2)).
Proof.
  assert (Hm : -2 <> 0) by lra.
  split; [exact Hm | exact (alpha_is_horizontal_over_vertical 3 (-2) 4 Hm)].
Defined.

Lemma Edens_real (w_0 k m l rho_0 : R) :
  ~ (k = 0 /\ l = 0) ->
  Edens (Real w_0) (Real k) (Real m) (Real l) (Real rho_0)
  = Real (rho_0 * w_0 ^ 2 * (k ^ 2 + l ^ 2 + m ^ 2) / (2 * (k ^ 2 + l ^ 2))).
Proof.
  intros Hkl.
  assert (Hne : ~ (k = 0 /\ l = 0 /\ m = 0)) by (intros (Hk & Hl & _); now apply Hkl).
  pose proof (sum_sq_pos k l m Hne) as HK.
  pose proof (sqrt_lt_R0 _ HK) as Hs.
  pose proof (hypot_pos k l Hkl) as Hh.
  pose proof (sqrt_sqrt (k ^ 2 + l ^ 2 + m ^ 2) ltac:(lra)) as Hss.
  assert (Hhh : sqrt (k ^ 2 + l ^ 2) * sqrt (k ^ 2 + l ^ 2) = k ^ 2 + l ^ 2).
  { apply sqrt_sqrt. pose proof (pow2_ge_0 k). pose proof (pow2_ge_0 l). lra. }
  unfold Edens. cbv zeta. rewrite (phip_real k m l Hne).
  unfold np_cos. r_eval. rewrite (cos_phip_value k m l Hne).
  set (s := sqrt (k ^ 2 + l ^ 2 + m ^ 2)) in *.
  set (h := sqrt (k ^ 2 + l ^ 2)) in *.
  rewrite r_div_real by (unfold Rdiv; apply Rmult_integral_contrapositive_currified;
                         [|apply Rinv_neq_0_compat]; lra).
  r_eval. rewrite <- Hss, <- Hhh. f_equal. field. lra.
Qed.

(** X24: the energy density in closed form.  With (k, l) not both zero,
    Edens = rho_0 w_0^2 (k^2 + l^2 + m^2) / (2 (k^2 + l^2)); it is
    nonnegative when rho_0 is. *)
Theorem Edens_closed_form (w_0 k m l rho_0 : R) :
  ~ (k = 0 /\ l = 0) ->
  Edens (Real w_0) (Real k) (Real m) (Real l) (Real rho_0)
  = Real (rho_0 * w_0 ^ 2 * (k ^ 2 + l ^ 2 + m ^ 2) / (2 * (k ^ 2 + l ^ 2)))
  /\ (0 <= rho_0 ->
      0 <= rho_0 * w_0 ^ 2 * (k ^ 2 + l ^ 2 + m ^ 2) / (2 * (k ^ 2 + l ^ 2))).
Proof.
  intros Hkl. split; [now apply Edens_real|].
  intros Hrho.
  assert (Hh : 0 < k ^ 2 + l ^ 2).
  { pose proof (sum_sq_pos k l 0) as Hp.
    replace (k ^ 2 + l ^ 2 + 0 ^ 2) with (k ^ 2 + l ^ 2) in Hp by ring.
    apply Hp. intros (Hk & Hl & _). now apply Hkl. }
  apply quotient_nonneg; [|lra].
  pose proof (pow2_ge_0 m).
  apply Rmult_le_pos; [apply Rmult_le_pos; [assumption | apply pow2_ge_0] | lra].
Qed.

Lemma Edens_closed_form_witness :
  ~ (1 = 0 /\ 0 = 0) /\
  Edens (Real 1) (Real 1) (Real 1) (Real 0) (Real 1025)
  = Real (1025 * 1 ^ 2 * (1 ^ 2 + 0 ^ 2 + 1 ^ 2) / (2 * (1 ^ 2 + 0 ^ 2))).
Proof.
  assert (Hkl : ~ (1 = 0 /\ 0 = 0)) by (intros [H1 _]; lra).
  split; [exact Hkl | exact (proj1 (Edens_closed_form 1 1 1 0 1025 Hkl))].
Defined.

(** X25: the vertical energy flux in closed form.  With (k, l) not both
    zero and D = f^2 m^2 + N^2 (k^2 + l^2) nonzero,
    Efluxz = - rho_0 w_0^2 m (N^2 - f^2) / (2 |K| sqrt D). *)
Theorem Efluxz_closed_form (w_0 k m N l f rho_0 : R) :
  ~ (k = 0 /\ l = 0) ->
  f ^ 2 * m ^ 2 + N ^ 2 * (k ^ 2 + l ^ 2) <> 0 ->
  Efluxz (Real w_0) (Real k) (Real m) (Real N) (Real l) (Real f) (Real rho_0)
  = Real (- (rho_0 * w_0 ^ 2 * m * (N ^ 2 - f ^ 2))
          / (2 * sqrt (k ^ 2 + l ^ 2 + m ^ 2)
             * sqrt (f ^ 2 * m ^ 2 + N ^ 2 * (k ^ 2 + l ^ 2)))).
Proof.
  intros Hkl HD.
  assert (Hne : ~ (k = 0 /\ l = 0 /\ m = 0)) by (intros (Hk & Hl & _); now apply Hkl).
  pose proof (sum_sq_pos k l m Hne) as HK.
  assert (Hh : 0 < k ^ 2 + l ^ 2).
  { pose proof (sum_sq_pos k l 0) as Hp.
    replace (k ^ 2 + l ^ 2 + 0 ^ 2) with (k ^ 2 + l ^ 2) in Hp by ring.
    apply Hp. intros (Hk & Hl & _). now apply Hkl. }
  assert (HDpos : 0 < f ^ 2 * m ^ 2 + N ^ 2 * (k ^ 2 + l ^ 2))
    by (pose proof (dispersion_numerator_nonneg N k m l f); lra).
  pose proof (sqrt_lt_R0 _ HK) as Hs. pose proof (sqrt_lt_R0 _ HDpos) as Hd.
  unfold Efluxz. rewrite (Edens_real w_0 k m l rho_0 Hkl), (cgz_real k m N l f Hkl HD).
  r_eval. f_equal. field. repeat split; lra.
Qed.

Lemma Efluxz_closed_form_witness :
  (~ (3 = 0 /\ 0 = 0) /\ 1 ^ 2 * 4 ^ 2 + 2 ^ 2 * (3 ^ 2 + 0 ^ 2) <> 0) /\
  Efluxz (Real 1) (Real 3) (Real 4) (Real 2) (Real 0) (Real 1) (Real 1025)
  = Real (- (1025 * 1 ^ 2 * 4 * (2 ^ 2 - 1 ^ 2))
          / (2 * sqrt (3 ^ 2 + 0 ^ 2 + 4 ^ 2)
             * sqrt (1 ^ 2 * 4 ^ 2 + 2 ^ 2 * (3 ^ 2 + 0 ^ 2)))).
Proof.
  assert (Hkl : ~ (3 = 0 /\ 0 = 0)) by (intros [H3 _]; lra).
  assert (HD : 1 ^ 2 * 4 ^ 2 + 2 ^ 2 * (3 ^ 2 + 0 ^ 2) <> 0) by lra.
  split; [split; assumption | exact (Efluxz_closed_form 1 3 4 2 0 1 1025 Hkl HD)].
Defined.

Lemma modulus_square_nonneg (x y : R) : 0 <= x ^ 2 + y ^ 2.
Proof.
  pose proof (pow2_ge_0 x). pose proof (pow2_ge_0 y). lra.
Qed.

Lemma product_of_moduli_square (x1 y1 x2 y2 : R) :
  (sqrt (x1 ^ 2 + y1 ^ 2) * sqrt (x2 ^ 2 + y2 ^ 2)) ^ 2
  = (x1 ^ 2 + y1 ^ 2) * (x2 ^ 2 + y2 ^ 2).
Proof.
  replace ((sqrt (x1 ^ 2 + y1 ^ 2) * sqrt (x2 ^ 2 + y2 ^ 2)) ^ 2)
    with (sqrt (x1 ^ 2 + y1 ^ 2) ^ 2 * sqrt (x2 ^ 2 + y2 ^ 2) ^ 2) by ring.
  now rewrite !sqrt_pow2_id by apply modulus_square_nonneg.
Qed.

(** X26: the momentum flux in closed form.  Away from the singular
    frequencies, Mfluxz is rho_0 / 2 times the square root of
    om^2 m^2 (k^2 + l^2) (om^2 + f^2) |phi_0|^4
    / ((om^2 - f^2)^2 (N^2 - om^2)^2); it is nonnegative when rho_0 is. *)
Theorem Mfluxz_closed_form (re im k l m om N f rho_0 : R) :
  om ^ 2 - f ^ 2 <> 0 ->
  N ^ 2 - om ^ 2 <> 0 ->
  Mfluxz (Cplx re im) (Real k) (Real l) (Real m) (Real om) (Real N) (Real f) (Real rho_0)
  = Real (1 / 2 * rho_0
          * sqrt (om ^ 2 * m ^ 2 * (k ^ 2 + l ^ 2) * (om ^ 2 + f ^ 2) * (re ^ 2 + im ^ 2) ^ 2
                  / ((om ^ 2 - f ^ 2) ^ 2 * (N ^ 2 - om ^ 2) ^ 2)))
  /\ (0 <= rho_0 ->
      0 <= 1 / 2 * rho_0
           * sqrt (om ^ 2 * m ^ 2 * (k ^ 2 + l ^ 2) * (om ^ 2 + f ^ 2) * (re ^ 2 + im ^ 2) ^ 2
                   / ((om ^ 2 - f ^ 2) ^ 2 * (N ^ 2 - om ^ 2) ^ 2))).
Proof.
  intros HA HB. split.
  - unfold Mfluxz. cbv zeta.
    rewrite U_0_components, V_0_components, W_0_components by assumption.
    cbn [np_abs]. r_eval. rewrite !product_of_moduli_square.
    rewrite r_sqrt_real.
    + r_eval. do 3 f_equal. field. split; assumption.
    + pose proof (modulus_square_nonneg ((k * om * re - l * f * im) / (om ^ 2 - f ^ 2))
                    ((k * om * im + l * f * re) / (om ^ 2 - f ^ 2))).
      pose proof (modulus_square_nonneg ((l * om * re + k * f * im) / (om ^ 2 - f ^ 2))
                    ((l * om * im - k * f * re) / (om ^ 2 - f ^ 2))).
      pose proof (modulus_square_nonneg (- om * m * re / (N ^ 2 - om ^ 2))
                    (- om * m * im / (N ^ 2 - om ^ 2))).
      nra.
  - intros Hrho. apply Rmult_le_pos; [lra | apply sqrt_pos].
Qed.

Lemma Mfluxz_closed_form_witness :
  (2 ^ 2 - 1 ^ 2 <> 0 /\ 3 ^ 2 - 2 ^ 2 <> 0) /\
  Mfluxz (Cplx 1 0) (Real 1) (Real 0) (Real 1) (Real 2) (Real 3) (Real 1) (Real 1025)
  = Real (1 / 2 * 1025
          * sqrt (2 ^ 2 * 1 ^ 2 * (1 ^ 2 + 0 ^ 2) * (2 ^ 2 + 1 ^ 2) * (1 ^ 2 + 0 ^ 2) ^ 2
                  / ((2 ^ 2 - 1 ^ 2) ^ 2 * (3 ^ 2 - 2 ^ 2) ^ 2))).
Proof.
  assert (HA : 2 ^ 2 - 1 ^ 2 <> 0) by lra.
  assert (HB : 3 ^ 2 - 2 ^ 2 <> 0) by lra.
  split; [split; assumption | exact (proj1 (Mfluxz_closed_form 1 0 1 0 1 2 3 1 1025 HA HB))].
Defined.

(** ** The group velocity as the gradient of the frequency *)

Lemma derivable_pt_lim_value (g : R -> R) (x l l' : R) :
  l = l' -> derivable_pt_lim g x l -> derivable_pt_lim g x l'.
Proof. now intros ->. Qed.

Lemma derivable_pt_lim_quadratic (a c x : R) :
  derivable_pt_lim (fun t => a * t ^ 2 + c) x (2 * a * x).
Proof.
  apply (derivable_pt_lim_value _ _ (a * (INR 2 * x ^ pred 2) + 0)); [cbn; ring|].
  apply (derivable_pt_lim_plus (mult_real_fct a (fun y => y ^ 2)) (fct_cte c)).
  - apply derivable_pt_lim_scal, derivable_pt_lim_pow.
  - apply derivable_pt_lim_const.
Qed.

(** The derivative of sqrt((a t^2 + c1) / (t^2 + c2)) in t. *)
Lemma derivable_pt_lim_sqrt_ratio (a c1 c2 x : R) :
  0 < a * x ^ 2 + c1 ->
  0 < 1 * x ^ 2 + c2 ->
  derivable_pt_lim (fun t => sqrt ((a * t ^ 2 + c1) / (1 * t ^ 2 + c2))) x
    (x * (a * c2 - c1)
     / ((1 * x ^ 2 + c2) * sqrt (1 * x ^ 2 + c2) * sqrt (a * x ^ 2 + c1))).
Proof.
  intros Hnum Hden.
  pose proof (sqrt_lt_R0 _ Hnum) as Hsn. pose proof (sqrt_lt_R0 _ Hden) as Hsd.
  pose proof (sqrt_sqrt (a * x ^ 2 + c1) ltac:(lra)) as Hnn.
  pose proof (sqrt_sqrt (1 * x ^ 2 + c2) ltac:(lra)) as Hdd.
  assert (Hq : 0 < (a * x ^ 2 + c1) / (1 * x ^ 2 + c2))
    by (unfold Rdiv; apply Rmult_lt_0_compat; [|apply Rinv_0_lt_compat]; assumption).
  eapply derivable_pt_lim_value;
    [| apply (derivable_pt_lim_comp
                (div_fct (fun t => a * t ^ 2 + c1) (fun t => 1 * t ^ 2 + c2)) sqrt x);
       [ apply derivable_pt_lim_div;
         [apply derivable_pt_lim_quadratic | apply derivable_pt_lim_quadratic | lra]
       | apply derivable_pt_lim_sqrt; exact Hq ] ].
  unfold div_fct, Rsqr. rewrite sqrt_div_alt by assumption.
  remember (sqrt (a * x ^ 2 + c1)) as sn eqn:Esn.
  remember (sqrt (1 * x ^ 2 + c2)) as sd eqn:Esd.
  assert (Hc2 : c2 = sd * sd - 1 * x ^ 2) by lra.
  clear Esn Esd Hq Hden Hdd. subst c2.
  assert (Hsd2 : 0 < sd * sd) by now apply Rmult_lt_0_compat.
  field. repeat split; lra.
Qed.

Lemma frequency_partial_m (k l m N f : R) :
  ~ (k = 0 /\ l = 0) ->
  f ^ 2 * m ^ 2 + N ^ 2 * (k ^ 2 + l ^ 2) <> 0 ->
  derivable_pt_lim
    (fun t => sqrt ((f ^ 2 * t ^ 2 + N ^ 2 * (k ^ 2 + l ^ 2)) / (k ^ 2 + l ^ 2 + t ^ 2))) m
    (- m * (N ^ 2 - f ^ 2) * (k ^ 2 + l ^ 2)
     / ((k ^ 2 + l ^ 2 + m ^ 2) * sqrt (k ^ 2 + l ^ 2 + m ^ 2)
        * sqrt (f ^ 2 * m ^ 2 + N ^ 2 * (k ^ 2 + l ^ 2)))).
Proof.
  intros Hkl HD.
  assert (Hne : ~ (k = 0 /\ l = 0 /\ m = 0)) by (intros (Hk & Hl & _); now apply Hkl).
  pose proof (sum_sq_pos k l m Hne) as HK.
  assert (HDpos : 0 < f ^ 2 * m ^ 2 + N ^ 2 * (k ^ 2 + l ^ 2))
    by (pose proof (dispersion_numerator_nonneg N k m l f); lra).
  pose proof (sqrt_lt_R0 _ HK) as Hs. pose proof (sqrt_lt_R0 _ HDpos) as Hd.
  apply (derivable_pt_lim_ext
           (fun t => sqrt ((f ^ 2 * t ^ 2 + N ^ 2 * (k ^ 2 + l ^ 2))
                           / (1 * t ^ 2 + (k ^ 2 + l ^ 2))))).
  { intros t. do 2 f_equal. ring. }
  eapply derivable_pt_lim_value; [|apply derivable_pt_lim_sqrt_ratio; lra].
  replace (1 * m ^ 2 + (k ^ 2 + l ^ 2)) with (k ^ 2 + l ^ 2 + m ^ 2) by ring.
  field. repeat split; lra.
Qed.

Lemma frequency_partial_k (k l m N f : R) :
  ~ (k = 0 /\ l = 0 /\ m = 0) ->
  f ^ 2 * m ^ 2 + N ^ 2 * (k ^ 2 + l ^ 2) <> 0 ->
  derivable_pt_lim
    (fun t => sqrt ((f ^ 2 * m ^ 2 + N ^ 2 * (t ^ 2 + l ^ 2)) / (t ^ 2 + l ^ 2 + m ^ 2))) k
    (k * m ^ 2 * (N ^ 2 - f ^ 2)
     / ((k ^ 2 + l ^ 2 + m ^ 2) * sqrt (k ^ 2 + l ^ 2 + m ^ 2)
        * sqrt (f ^ 2 * m ^ 2 + N ^ 2 * (k ^ 2 + l ^ 2)))).
Proof.
  intros Hne HD.
  pose proof (sum_sq_pos k l m Hne) as HK.
  assert (HDpos : 0 < f ^ 2 * m ^ 2 + N ^ 2 * (k ^ 2 + l ^ 2))
    by (pose proof (dispersion_numerator_nonneg N k m l f); lra).
  pose proof (sqrt_lt_R0 _ HK) as Hs. pose proof (sqrt_lt_R0 _ HDpos) as Hd.
  apply (derivable_pt_lim_ext
           (fun t => sqrt ((N ^ 2 * t ^ 2 + (f ^ 2 * m ^ 2 + N ^ 2 * l ^ 2))
                           / (1 * t ^ 2 + (l ^ 2 + m ^ 2))))).
  { intros t. f_equal. f_equal; ring. }
  eapply derivable_pt_lim_value; [|apply derivable_pt_lim_sqrt_ratio; lra].
  replace (1 * k ^ 2 + (l ^ 2 + m ^ 2)) with (k ^ 2 + l ^ 2 + m ^ 2) by ring.
  replace (N ^ 2 * k ^ 2 + (f ^ 2 * m ^ 2 + N ^ 2 * l ^ 2))
    with (f ^ 2 * m ^ 2 + N ^ 2 * (k ^ 2 + l ^ 2)) by ring.
  field. repeat split; lra.
Qed.

Lemma frequency_partial_l (k l m N f : R) :
  ~ (k = 0 /\ l = 0 /\ m = 0) ->
  f ^ 2 * m ^ 2 + N ^ 2 * (k ^ 2 + l ^ 2) <> 0 ->
  derivable_pt_lim
    (fun t => sqrt ((f ^ 2 * m ^ 2 + N ^ 2 * (k ^ 2 + t ^ 2)) / (k ^ 2 + t ^ 2 + m ^ 2))) l
    (l * m ^ 2 * (N ^ 2 - f ^ 2)
     / ((k ^ 2 + l ^ 2 + m ^ 2) * sqrt (k ^ 2 + l ^ 2 + m ^ 2)
        * sqrt (f ^ 2 * m ^ 2 + N ^ 2 * (k ^ 2 + l ^ 2)))).
Proof.
  intros Hne HD.
  pose proof (sum_sq_pos k l m Hne) as HK.
  assert (HDpos : 0 < f ^ 2 * m ^ 2 + N ^ 2 * (k ^ 2 + l ^ 2))
    by (pose proof (dispersion_numerator_nonneg N k m l f); lra).
  pose proof (sqrt_lt_R0 _ HK) as Hs. pose proof (sqrt_lt_R0 _ HDpos) as Hd.
  apply (derivable_pt_lim_ext
           (fun t => sqrt ((N ^ 2 * t ^ 2 + (f ^ 2 * m ^ 2 + N ^ 2 * k ^ 2))
                           / (1 * t ^ 2 + (k ^ 2 + m ^ 2))))).
  { intros t. f_equal. f_equal; ring. }
  eapply derivable_pt_lim_value; [|apply derivable_pt_lim_sqrt_ratio; lra].
  replace (1 * l ^ 2 + (k ^ 2 + m ^ 2)) with (k ^ 2 + l ^ 2 + m ^ 2) by ring.
  replace (N ^ 2 * l ^ 2 + (f ^ 2 * m ^ 2 + N ^ 2 * k ^ 2))
    with (f ^ 2 * m ^ 2 + N ^ 2 * (k ^ 2 + l ^ 2)) by ring.
  field. repeat split; lra.
Qed.

(** X27: [cgz] is the derivative of the frequency with respect to the
    vertical wavenumber.  With (k, l) not both zero and
    f^2 m^2 + N^2 (k^2 + l^2) nonzero, the function t |-> omega(N, k, t, l, f)
    is real-valued and its derivative at m is the number [cgz] returns. *)
Theorem cgz_is_frequency_derivative (k l m N f : R) :
  ~ (k = 0 /\ l = 0) ->
  f ^ 2 * m ^ 2 + N ^ 2 * (k ^ 2 + l ^ 2) <> 0 ->
  exists (W : R -> R) (c : R),
    (forall t : R, omega (Real N) (Real k) (Real t) (Real l) (Real f) = Real (W t))
    /\ cgz (Real k) (Real m) (Real N) (Real l) (Real f) = Real c
    /\ derivable_pt_lim W m c.
Proof.
  intros Hkl HD.
  exists (fun t => sqrt ((f ^ 2 * t ^ 2 + N ^ 2 * (k ^ 2 + l ^ 2)) / (k ^ 2 + l ^ 2 + t ^ 2))).
  eexists. split; [|split].
  - intros t. apply omega_real. intros (Hk & Hl & _). now apply Hkl.
  - now apply cgz_real.
  - now apply frequency_partial_m.
Qed.

Lemma cgz_is_frequency_derivative_witness :
  (~ (3 = 0 /\ 0 = 0) /\ 1 ^ 2 * 4 ^ 2 + 2 ^ 2 * (3 ^ 2 + 0 ^ 2) <> 0) /\
  exists (W : R -> R) (c : R),
    (forall t : R, omega (Real 2) (Real 3) (Real t) (Real 0) (Real 1) = Real (W t))
    /\ cgz (Real 3) (Real 4) (Real 2) (Real 0) (Real 1) = Real c
    /\ derivable_pt_lim W 4 c.
Proof.
  assert (Hkl : ~ (3 = 0 /\ 0 = 0)) by (intros [H3 _]; lra).
  assert (HD : 1 ^ 2 * 4 ^ 2 + 2 ^ 2 * (3 ^ 2 + 0 ^ 2) <> 0) by lra.
  split; [split; assumption | exact (cgz_is_frequency_derivative 3 0 4 2 1 Hkl HD)].
Defined.

(** X28: the horizontal components of [cgvec] are the derivatives of the
    frequency with respect to k and to l, for either sign of m; for m >= 0
    the third component is the derivative with respect to m, so that
    [cgvec] is then the gradient of [omega] in wavenumber space. *)
Theorem cgvec_is_frequency_gradient (k l m N f : R) :
  ~ (k = 0 /\ l = 0) ->
  f ^ 2 * m ^ 2 + N ^ 2 * (k ^ 2 + l ^ 2) <> 0 ->
  exists (W : R -> R -> R -> R) (cx cy cz : R),
    (forall k' l' m' : R,
        ~ (k' = 0 /\ l' = 0 /\ m' = 0) ->
        omega (Real N) (Real k') (Real m') (Real l') (Real f) = Real (W k' l' m'))
    /\ cgvec (Real k) (Real l) (Real m) (Real N) (Real f) = [Real cx; Real cy; Real cz]
    /\ derivable_pt_lim (fun t => W t l m) k cx
    /\ derivable_pt_lim (fun t => W k t m) l cy
    /\ (0 <= m -> derivable_pt_lim (fun t => W k l t) m cz).
Proof.
  intros Hkl HD.
  assert (Hne : ~ (k = 0 /\ l = 0 /\ m = 0)) by (intros (Hk & Hl & _); now apply Hkl).
  exists (fun k' l' m' =>
            sqrt ((f ^ 2 * m' ^ 2 + N ^ 2 * (k' ^ 2 + l' ^ 2)) / (k' ^ 2 + l' ^ 2 + m' ^ 2))).
  do 3 eexists. split; [|split; [|split; [|split]]].
  - intros k' l' m' Hne'. now apply omega_real.
  - now apply cgvec_components.
  - now apply frequency_partial_k.
  - now apply frequency_partial_l.
  - intros Hm. cbv beta.
    eapply derivable_pt_lim_value; [|now apply frequency_partial_m].
    rewrite (Rabs_right m) by lra. reflexivity.
Qed.

Lemma cgvec_is_frequency_gradient_witness :
  (~ (3 = 0 /\ 0 = 0) /\ 1 ^ 2 * 4 ^ 2 + 2 ^ 2 * (3 ^ 2 + 0 ^ 2) <> 0) /\
  exists (W : R -> R -> R -> R) (cx cy cz : R),
    (forall k' l' m' : R,
        ~ (k' = 0 /\ l' = 0 /\ m' = 0) ->
        omega (Real 2) (Real k') (Real m') (Real l') (Real 1) = Real (W k' l' m'))
    /\ cgvec (Real 3) (Real 0) (Real 4) (Real 2) (Real 1) = [Real cx; Real cy; Real cz]
    /\ derivable_pt_lim (fun t => W t 0 4) 3 cx
    /\ derivable_pt_lim (fun t => W 3 t 4) 0 cy
    /\ (0 <= 4 -> derivable_pt_lim (fun t => W 3 0 t) 4 cz).
Proof.
  assert (Hkl : ~ (3 = 0 /\ 0 = 0)) by (intros [H3 _]; lra).
  assert (HD : 1 ^ 2 * 4 ^ 2 + 2 ^ 2 * (3 ^ 2 + 0 ^ 2) <> 0) by lra.
  split; [split; assumption | exact (cgvec_is_frequency_gradient 3 0 4 2 1 Hkl HD)].
Defined.
